(** * The in-memory packet-filter controller of util/linuxfw

    A shallow embedding of [fakeIPTables] (util/linuxfw, in
    iptables_runner_test.go),
    the in-memory implementation of the per-family controller interface, and
    of the operations of the dual-stack runner that the tests drive through it.

    Conventions of the embedding:
    - a Go [int] is a [Z]; [len] of a slice is the [Z] of its length;
    - a Go [[]string] is a [list string]; the [nil] slice and the empty slice
      are both [[]] (the code never compares a slice with [nil]);
    - the Go map [n.n] is a [gmap string (list string)]; the map holds the only
      reference to each rule slice, so writes through a local slice header are
      visible only once the header is stored back with [n.n[k] = rules];
    - a Go [error] is an [option error], [None] being [nil];
    - a call either returns or panics ([result]): slice expressions and index
      expressions out of range panic, as the Go run time does;
    - the shared [*testing.T] is the list of the events recorded on it. *)

From stdpp Require Import gmap strings list fin_maps pretty.
From Stdlib Require Import ZArith Lia Ascii.

(** ** Outcomes of a Go call *)

Inductive result (A : Type) : Type :=
  | Return (a : A)
  | Panic.
Arguments Return {A} a.
Arguments Panic {A}.

#[global] Instance result_ret : MRet result := λ A a, Return a.
#[global] Instance result_bind : MBind result := λ A B f m,
  match m with
  | Return a => f a
  | Panic => Panic
  end.

(** ** The Go primitives the controller uses *)

Module Go.

Definition len {A} (s : list A) : Z := Z.of_nat (length s).

(** [append(s, x)] *)
Definition append {A} (s : list A) (x : A) : list A := s ++ [x].

(** [s[lo:]]: panics unless [0 <= lo <= len(s)]. *)
Definition slice_from {A} (s : list A) (lo : Z) : result (list A) :=
  if bool_decide (0 ≤ lo ≤ len s)%Z
  then Return (drop (Z.to_nat lo) s)
  else Panic.

(** [s[:hi]]: panics unless [0 <= hi <= len(s)]. *)
Definition slice_to {A} (s : list A) (hi : Z) : result (list A) :=
  if bool_decide (0 ≤ hi ≤ len s)%Z
  then Return (take (Z.to_nat hi) s)
  else Panic.

(** The effect on [s] of copying [src] over the window of [s] that starts at
    index [off]: [min (len(s) - off) (len(src))] elements are written, the
    elements of [src] being read as they were before the copy (memmove). *)
Definition overwrite {A} (s : list A) (off : nat) (src : list A) : list A :=
  let k := (length s - off) `min` length src in
  take off s ++ take k src ++ drop (off + k) s.

(** [copy(s[dlo:], s[slo:])]: the two slice expressions are evaluated, left to
    right, then the source window is copied over the destination window. *)
Definition copy_within {A} (s : list A) (dlo slo : Z) : result (list A) :=
  _ ← slice_from s dlo;
  src ← slice_from s slo;
  Return (overwrite s (Z.to_nat dlo) src).

(** [s[i] = x]: panics unless [0 <= i < len(s)]. *)
Definition store {A} (s : list A) (i : Z) (x : A) : result (list A) :=
  if bool_decide (0 ≤ i < len s)%Z
  then Return (<[Z.to_nat i := x]> s)
  else Panic.

(** [strings.Join(elems, sep)] *)
Fixpoint Join (elems : list string) (sep : string) : string :=
  match elems with
  | [] => ""
  | [e] => e
  | e :: rest => e +:+ sep +:+ Join rest sep
  end.

End Go.

(** ** The test handle *)

(** An argument of a format string, kept unformatted. *)
Inductive fmtarg : Type :=
  | ArgInt (z : Z)
  | ArgStr (s : string).

(** What [t.Errorf] and [t.Logf] record on the [*testing.T]; [Errorf] also
    marks the test as failed. *)
Inductive tevent : Type :=
  | Errorf (format : string) (a : list fmtarg)
  | Logf (format : string) (a : list fmtarg).

(** ** Errors *)

Inductive error : Type :=
  | errExec                       (* errors.New("execution failed") *)
  | errorsNew (text : string).    (* any other errors.New(text) *)

(** ** fakeIPTables *)

Record fakeIPTables : Type := mkFake {
  t : list tevent;
  n : gmap string (list string)
}.

Definition t_Errorf (f : fakeIPTables) (format : string) (a : list fmtarg)
  : fakeIPTables :=
  mkFake (t f ++ [Errorf format a]) (n f).

Definition t_Logf (f : fakeIPTables) (format : string) (a : list fmtarg)
  : fakeIPTables :=
  mkFake (t f ++ [Logf format a]) (n f).

(** [n.n[k] = rules] *)
Definition set_chain (f : fakeIPTables) (k : string) (rules : list string)
  : fakeIPTables :=
  mkFake (t f) (<[k := rules]> (n f)).

(** [delete(n.n, k)] *)
Definition delete_chain (f : fakeIPTables) (k : string) : fakeIPTables :=
  mkFake (t f) (delete k (n f)).

(** [table + "/" + chain] *)
Definition key (table chain : string) : string := table +:+ "/" +:+ chain.

Definition newIPTables (log : list tevent) : fakeIPTables :=
  mkFake log
    (<["filter/INPUT" := []]>
     (<["filter/OUTPUT" := []]>
      (<["filter/FORWARD" := []]>
       (<["nat/PREROUTING" := []]>
        (<["nat/OUTPUT" := []]>
         (<["nat/POSTROUTING" := []]> ∅)))))).

Definition Insert (f : fakeIPTables) (table chain : string) (pos : Z)
    (args : list string) : result (fakeIPTables * option error) :=
  let k := key table chain in
  match n f !! k with
  | Some rules =>
      if bool_decide (pos > Go.len rules + 1)%Z then
        Return (t_Errorf f "bad position %d in %s" [ArgInt pos; ArgStr k],
                Some errExec)
      else
        let rules := Go.append rules "" in
        rules ← Go.copy_within rules pos (pos - 1);
        rules ← Go.store rules (pos - 1) (Go.Join args " ");
        Return (set_chain f k rules, None)
  | None =>
      Return (t_Errorf f "unknown table/chain %s" [ArgStr k], Some errExec)
  end.

Definition Append (f : fakeIPTables) (table chain : string)
    (args : list string) : result (fakeIPTables * option error) :=
  let k := key table chain in
  Insert f table chain (Go.len (default [] (n f !! k)) + 1) args.

(** The loop of [Exists]: [true] at the first rule equal to [target]. *)
Fixpoint range_has (rules : list string) (target : string) : bool :=
  match rules with
  | [] => false
  | rule :: rest =>
      if decide (rule = target) then true else range_has rest target
  end.

Definition Exists (f : fakeIPTables) (table chain : string)
    (args : list string) : result (fakeIPTables * (bool * option error)) :=
  let k := key table chain in
  match n f !! k with
  | Some rules => Return (f, (range_has rules (Go.Join args " "), None))
  | None =>
      Return (t_Logf f "unknown table/chain %s" [ArgStr k],
              (false, Some errExec))
  end.

Definition hasChain (f : fakeIPTables) (table chain : string) : bool :=
  let k := key table chain in
  match n f !! k with
  | Some _ => true
  | None => false
  end.

(** The loop of [Delete]: the index [i] of the first rule equal to [target],
    counting from [i0]. *)
Fixpoint range_index (rules : list string) (target : string) (i0 : nat)
  : option nat :=
  match rules with
  | [] => None
  | rule :: rest =>
      if decide (rule = target) then Some i0
      else range_index rest target (S i0)
  end.

Definition Delete (f : fakeIPTables) (table chain : string)
    (args : list string) : result (fakeIPTables * option error) :=
  let k := key table chain in
  match n f !! k with
  | Some rules =>
      match range_index rules (Go.Join args " ") 0 with
      | Some i =>
          front ← Go.slice_to rules (Z.of_nat i);
          back ← Go.slice_from rules (Z.of_nat i + 1);
          let rules := front ++ back in
          Return (set_chain f k rules, None)
      | None =>
          Return (t_Errorf f "delete of unknown rule %q from %s"
                    [ArgStr (Go.Join args " "); ArgStr k],
                  Some errExec)
      end
  | None =>
      Return (t_Errorf f "unknown table/chain %s" [ArgStr k], Some errExec)
  end.

Definition ClearChain (f : fakeIPTables) (table chain : string)
  : result (fakeIPTables * option error) :=
  let k := key table chain in
  match n f !! k with
  | Some _ => Return (set_chain f k [], None)
  | None =>
      Return (t_Logf f "note: ClearChain: unknown table/chain %s" [ArgStr k],
              Some (errorsNew "exitcode:1"))
  end.

Definition NewChain (f : fakeIPTables) (table chain : string)
  : result (fakeIPTables * option error) :=
  let k := key table chain in
  match n f !! k with
  | Some _ =>
      Return (t_Errorf f "table/chain %s already exists" [ArgStr k],
              Some errExec)
  | None => Return (set_chain f k [], None)
  end.

Definition DeleteChain (f : fakeIPTables) (table chain : string)
  : result (fakeIPTables * option error) :=
  let k := key table chain in
  match n f !! k with
  | Some rules =>
      if bool_decide (Go.len rules ≠ 0%Z) then
        Return (t_Errorf f "%s is not empty" [ArgStr k], Some errExec)
      else Return (delete_chain f k, None)
  | None =>
      Return (t_Errorf f "%s does not exist" [ArgStr k], Some errExec)
  end.

(** 1-based positions in a chain: the rule at position [q]. *)
Definition rule_at (rules : list string) (q : Z) : option string :=
  if bool_decide (1 ≤ q)%Z then rules !! Z.to_nat (q - 1) else None.

(** How many rules of a chain are equal to [target]. *)
Definition copies (target : string) (rules : list string) : nat :=
  length (filter (λ rule, rule = target) rules).

(** What [Insert] leaves in the chain: the joined arguments, in front of the
    rule that was at 1-based position [pos]. *)
Definition inserted (rules : list string) (pos : Z) (args : list string)
  : list string :=
  take (Z.to_nat (pos - 1)) rules
    ++ Go.Join args " " :: drop (Z.to_nat (pos - 1)) rules.

(** The rules of a chain as [n.n[k]] reads them: none for an unknown chain. *)
Definition existing (f : fakeIPTables) (table chain : string) : list string :=
  default [] (n f !! key table chain).

(** [Append] in the words of the specification: [Insert] at position
    [len(existing) + 1]. *)
Definition Append_as_specified (f : fakeIPTables) (table chain : string)
    (args : list string) : result (fakeIPTables * option error) :=
  Insert f table chain (Go.len (existing f table chain) + 1) args.

(** ** The dual-stack runner *)

Module Runner.

Inductive family : Type := IPv4 | IPv6.

(** Modelled from the spec: the struct of the runner (declared in
    iptables_runner.go, which is missing), as [newFakeIPTablesRunner] fills
    it: two [fakeIPTables], built on the same [*testing.T], and the two
    NAT-table flags. The record holds the shared test log once and the chain
    map of each controller. *)
Record iptablesRunner : Type := mkRunner {
  log : list tevent;
  ipt4 : gmap string (list string);
  ipt6 : gmap string (list string);
  hasIPv4NAT : bool;
  hasIPv6NAT : bool
}.

Definition newFakeIPTablesRunner (l : list tevent) : iptablesRunner :=
  mkRunner l (n (newIPTables l)) (n (newIPTables l)) true true.

(** The controller of one family, as the [fakeIPTables] it is. *)
Definition ipt (r : iptablesRunner) (v : family) : fakeIPTables :=
  mkFake (log r) (match v with IPv4 => ipt4 r | IPv6 => ipt6 r end).

Definition hasNAT (r : iptablesRunner) (v : family) : bool :=
  match v with IPv4 => hasIPv4NAT r | IPv6 => hasIPv6NAT r end.

(** The runner after a call on the controller of family [v] left it as [f]. *)
Definition update (r : iptablesRunner) (v : family) (f : fakeIPTables)
  : iptablesRunner :=
  match v with
  | IPv4 => mkRunner (t f) (n f) (ipt6 r) (hasIPv4NAT r) (hasIPv6NAT r)
  | IPv6 => mkRunner (t f) (ipt4 r) (n f) (hasIPv4NAT r) (hasIPv6NAT r)
  end.

Definition call {A} (r : iptablesRunner) (v : family)
    (op : fakeIPTables → result (fakeIPTables * A))
  : result (iptablesRunner * A) :=
  '(f, a) ← op (ipt r v);
  Return (update r v f, a).

Record fakeRule : Type := mkRule {
  rule_table : string;
  rule_chain : string;
  rule_args : list string
}.

(** [tsRules] of [TestAddAndDeleteHooks]: the hook of each built-in chain. *)
Definition tsRules : list fakeRule :=
  [ mkRule "filter" "INPUT" ["-j"; "ts-input"];
    mkRule "filter" "FORWARD" ["-j"; "ts-forward"];
    mkRule "nat" "POSTROUTING" ["-j"; "ts-postrouting"] ].


(** Modelled from the spec: the helper of [AddHooks] that installs one hook
    (iptables_runner.go is missing). The hook is inserted at position 1 of its
    built-in chain unless it already exists there; an error of the controller
    is returned at once. *)
Definition divert (r : iptablesRunner) (v : family) (h : fakeRule)
  : result (iptablesRunner * option error) :=
  '(r, answer) ←
     call r v (λ f, Exists f (rule_table h) (rule_chain h) (rule_args h));
  match answer with
  | (_, Some e) => Return (r, Some e)
  | (true, None) => Return (r, None)
  | (false, None) =>
      call r v (λ f, Insert f (rule_table h) (rule_chain h) 1 (rule_args h))
  end.

(** Run the steps in order and stop at the first error. *)
Fixpoint steps {St} (ops : list (St → result (St * option error))) (s : St)
  : result (St * option error) :=
  match ops with
  | [] => Return (s, None)
  | op :: rest =>
      '(s, err) ← op s;
      match err with
      | Some e => Return (s, Some e)
      | None => steps rest s
      end
  end.

(** Modelled from the spec: the part of [AddHooks] for one family and one
    built-in chain (iptables_runner.go is missing). A NAT-table hook is
    skipped, without an error, when the family has no NAT table. *)
Definition hook_step (v : family) (h : fakeRule) (r : iptablesRunner)
  : result (iptablesRunner * option error) :=
  if bool_decide (rule_table h = "nat") && negb (hasNAT r v)
  then Return (r, None)
  else divert r v h.

(** Modelled from the spec: [AddHooks] of the runner (iptables_runner.go is
    missing). For each address family, v4 then v6, one hook per relevant
    built-in chain (generic input, generic forward, NAT post-routing),
    stopping at the first error. *)
Definition AddHooks (r : iptablesRunner)
  : result (iptablesRunner * option error) :=
  steps (v ← [IPv4; IPv6]; h ← tsRules; [hook_step v h]) r.

#[global] Instance family_eq_dec : EqDecision family.
Proof. solve_decision. Defined.
















End Runner.

(** ** What the test handle and the chains show of a call *)

(** [t.Failed()]: some [Errorf] was recorded on the test handle. *)
Definition Failed (l : list tevent) : bool :=
  existsb (λ e, match e with Errorf _ _ => true | Logf _ _ => false end) l.

(** Every chain but the one under key [k] is the same in [f] and [f']. *)
Definition same_elsewhere (k : string) (f f' : fakeIPTables) : Prop :=
  ∀ k', k' ≠ k → n f' !! k' = n f !! k'.

(** The keys of the map literal of [newIPTables]. *)
Definition builtin_keys : list string :=
  [ "filter/INPUT"; "filter/OUTPUT"; "filter/FORWARD";
    "nat/PREROUTING"; "nat/OUTPUT"; "nat/POSTROUTING" ].

(** The byte [c] occurs in [s]. *)
Fixpoint has_byte (c : ascii) (s : string) : bool :=
  match s with
  | EmptyString => false
  | String a rest => if decide (a = c) then true else has_byte c rest
  end.

(** An argument that is not empty and holds no space. *)
Definition plain (arg : string) : Prop :=
  arg ≠ "" ∧ has_byte " "%char arg = false.

(** [Append] called once for each argument list, in order, as long as the
    calls return [nil]. *)
Definition Append_each (f : fakeIPTables) (table chain : string)
    (argss : list (list string)) : result (fakeIPTables * option error) :=
  Runner.steps ((λ args f, Append f table chain args) <$> argss) f.

(** [Insert] at position 1 called once for each argument list, in order, as
    long as the calls return [nil]. *)
Definition Insert_first_each (f : fakeIPTables) (table chain : string)
    (argss : list (list string)) : result (fakeIPTables * option error) :=
  Runner.steps ((λ args f, Insert f table chain 1 args) <$> argss) f.

(** ** Package ipproto (types/ipproto/ipproto.go) *)

Module ipproto.

(** [fmt.Sprintf("%d", i)]: the decimal digits of [i], after a [-] when [i]
    is negative. *)
Definition Sprintf_d (i : Z) : string := pretty i.

(** [Version] and [Proto] are [uint8]: a value is a [Z] in this range. *)
Definition uint8 (p : Z) : Prop := (0 ≤ p < 256)%Z.

Definition Version4 : Z := 4.
Definition Version6 : Z := 6.

Definition Version_String (p : Z) : string :=
  if decide (p = Version4) then "IPv4"
  else if decide (p = Version6) then "IPv6"
  else "Version-" +:+ Sprintf_d p.

Definition Unknown : Z := 0x00.
Definition ICMPv4 : Z := 0x01.
Definition IGMP : Z := 0x02.
Definition ICMPv6 : Z := 0x3a.
Definition TCP : Z := 0x06.
Definition UDP : Z := 0x11.
Definition DCCP : Z := 0x21.
Definition GRE : Z := 0x2f.
Definition SCTP : Z := 0x84.
Definition TSMP : Z := 99.
Definition Fragment : Z := 0xFF.

Definition Proto_String (p : Z) : string :=
  if decide (p = Unknown) then "Unknown"
  else if decide (p = Fragment) then "Frag"
  else if decide (p = ICMPv4) then "ICMPv4"
  else if decide (p = IGMP) then "IGMP"
  else if decide (p = ICMPv6) then "ICMPv6"
  else if decide (p = UDP) then "UDP"
  else if decide (p = TCP) then "TCP"
  else if decide (p = SCTP) then "SCTP"
  else if decide (p = TSMP) then "TSMP"
  else if decide (p = GRE) then "GRE"
  else if decide (p = DCCP) then "DCCP"
  else "IPProto-" +:+ Sprintf_d p.

(** The protocols that [Proto.String] names. *)
Definition named : list Z :=
  [Unknown; Fragment; ICMPv4; IGMP; ICMPv6; UDP; TCP; SCTP; TSMP; GRE; DCCP].

End ipproto.

(** * Properties *)

(** ** Slices *)

Section slices.
Context {A : Type}.
Implicit Types (s rules : list A) (x : A).

Lemma len_append s x : Go.len (Go.append s x) = (Go.len s + 1)%Z.
Proof. unfold Go.len, Go.append. rewrite length_app. simpl. lia. Qed.

Lemma slice_from_in s (lo : nat) :
  lo ≤ length s → Go.slice_from s (Z.of_nat lo) = Return (drop lo s).
Proof.
  intros Hlo. unfold Go.slice_from, Go.len.
  rewrite bool_decide_eq_true_2 by lia. by rewrite Nat2Z.id.
Qed.

Lemma slice_to_in s (hi : nat) :
  hi ≤ length s → Go.slice_to s (Z.of_nat hi) = Return (take hi s).
Proof.
  intros Hhi. unfold Go.slice_to, Go.len.
  rewrite bool_decide_eq_true_2 by lia. by rewrite Nat2Z.id.
Qed.

Lemma slice_from_negative s (lo : Z) : (lo < 0)%Z → Go.slice_from s lo = Panic.
Proof.
  intros Hlo. unfold Go.slice_from. by rewrite bool_decide_eq_false_2 by lia.
Qed.

(** The window copied by [Insert] moves the tail of the chain one slot to the
    right; slot [p] keeps its old content. *)
Lemma overwrite_shift rules x (p : nat) :
  p ≤ length rules →
  Go.overwrite (Go.append rules x) (S p) (drop p (Go.append rules x))
  = take (S p) (Go.append rules x) ++ drop p rules.
Proof.
  intros Hp. unfold Go.overwrite, Go.append.
  rewrite length_drop, length_app. simpl.
  replace ((length rules + 1 - S p) `min` (length rules + 1 - p))
    with (length rules - p) by lia.
  rewrite drop_app_le by lia.
  rewrite (take_app_le (drop p rules)) by (rewrite length_drop; lia).
  rewrite (take_ge (drop p rules)) by (rewrite length_drop; lia).
  rewrite (drop_ge (rules ++ [x])) by (rewrite length_app; simpl; lia).
  by rewrite app_nil_r.
Qed.

Lemma store_after_shift rules x y (p : nat) :
  p ≤ length rules →
  <[p := y]> (take (S p) (Go.append rules x) ++ drop p rules)
  = take p rules ++ y :: drop p rules.
Proof.
  intros Hp. unfold Go.append.
  destruct (lookup_lt_is_Some_2 (rules ++ [x]) p) as [z Hz].
  { rewrite length_app. simpl. lia. }
  rewrite (take_S_r _ _ _ Hz), take_app_le by done.
  rewrite <- (assoc_L (++)). simpl.
  rewrite insert_app_r_alt by (rewrite length_take; lia).
  rewrite length_take. by replace (p - p `min` length rules) with 0 by lia.
Qed.

End slices.

(** ** [Insert] *)

Lemma Insert_in_range f table chain pos args rules :
  n f !! key table chain = Some rules →
  (1 ≤ pos ≤ Go.len rules + 1)%Z →
  Insert f table chain pos args
  = Return (set_chain f (key table chain) (inserted rules pos args), None).
Proof.
  intros Hk Hpos. unfold Insert. rewrite Hk.
  rewrite bool_decide_eq_false_2 by lia.
  unfold Go.len in Hpos.
  destruct (Z_of_nat_complete (pos - 1)) as [p Hp]; [lia|].
  assert (pos = Z.of_nat (S p)) as -> by lia.
  replace (Z.of_nat (S p) - 1)%Z with (Z.of_nat p) by lia.
  unfold Go.copy_within.
  rewrite slice_from_in by (unfold Go.append; rewrite length_app; simpl; lia).
  rewrite slice_from_in by (unfold Go.append; rewrite length_app; simpl; lia).
  cbn [mbind result_bind]. rewrite Nat2Z.id.
  rewrite overwrite_shift by lia.
  unfold Go.store, Go.len.
  rewrite bool_decide_eq_true_2.
  2:{ rewrite length_app, length_take, length_drop.
      unfold Go.append. rewrite length_app. cbn [length]. lia. }
  cbn [mbind result_bind]. rewrite Nat2Z.id.
  rewrite store_after_shift by lia.
  unfold inserted. by rewrite Hp, Nat2Z.id.
Qed.

Lemma Insert_too_far f table chain pos args rules :
  n f !! key table chain = Some rules →
  (pos > Go.len rules + 1)%Z →
  Insert f table chain pos args
  = Return (t_Errorf f "bad position %d in %s"
              [ArgInt pos; ArgStr (key table chain)], Some errExec).
Proof.
  intros Hk Hpos. unfold Insert. rewrite Hk.
  by rewrite bool_decide_eq_true_2 by lia.
Qed.

Lemma Insert_unknown f table chain pos args :
  n f !! key table chain = None →
  Insert f table chain pos args
  = Return (t_Errorf f "unknown table/chain %s" [ArgStr (key table chain)],
            Some errExec).
Proof. intros Hk. unfold Insert. by rewrite Hk. Qed.

Lemma Insert_not_positive f table chain pos args rules :
  n f !! key table chain = Some rules →
  (pos ≤ 0)%Z →
  Insert f table chain pos args = Panic.
Proof.
  intros Hk Hpos. unfold Insert. rewrite Hk.
  assert (0 ≤ Go.len rules)%Z by (unfold Go.len; lia).
  rewrite bool_decide_eq_false_2 by lia.
  unfold Go.copy_within.
  destruct (Go.slice_from (Go.append rules "") pos); cbn [mbind result_bind];
    [|done].
  by rewrite slice_from_negative by lia.
Qed.

(** ** The rules of the chain after [Insert] *)

Lemma rule_at_lookup (rules : list string) (i : nat) :
  rule_at rules (Z.of_nat i + 1) = rules !! i.
Proof.
  unfold rule_at. rewrite bool_decide_eq_true_2 by lia.
  f_equal. lia.
Qed.

Section inserted.
Variables (rules args : list string) (pos : Z).
Hypothesis Hpos : (1 ≤ pos ≤ Go.len rules + 1)%Z.

Lemma inserted_len : Go.len (inserted rules pos args) = (Go.len rules + 1)%Z.
Proof.
  unfold inserted, Go.len.
  rewrite length_app. cbn [length]. rewrite length_take, length_drop.
  unfold Go.len in Hpos. lia.
Qed.

Lemma inserted_at : rule_at (inserted rules pos args) pos = Some (Go.Join args " ").
Proof.
  unfold rule_at, inserted. rewrite bool_decide_eq_true_2 by lia.
  apply list_lookup_middle. rewrite length_take.
  unfold Go.len in Hpos. lia.
Qed.

Lemma inserted_before q :
  (1 ≤ q < pos)%Z → rule_at (inserted rules pos args) q = rule_at rules q.
Proof.
  intros Hq. unfold rule_at, inserted. rewrite bool_decide_eq_true_2 by lia.
  unfold Go.len in Hpos.
  rewrite lookup_app_l by (rewrite length_take; lia).
  apply lookup_take_lt. lia.
Qed.

Lemma inserted_after q :
  (pos ≤ q)%Z → rule_at (inserted rules pos args) (q + 1) = rule_at rules q.
Proof.
  intros Hq. unfold rule_at, inserted.
  rewrite !bool_decide_eq_true_2 by lia.
  unfold Go.len in Hpos.
  rewrite lookup_app_r by (rewrite length_take; lia).
  rewrite length_take.
  replace (Z.to_nat (q + 1 - 1) - Z.to_nat (pos - 1) `min` length rules)
    with (S (Z.to_nat (q - 1) - Z.to_nat (pos - 1))) by lia.
  etrans; [apply (lookup_drop rules)|]. f_equal. lia.
Qed.

End inserted.

Lemma inserted_elem rules pos args : Go.Join args " " ∈ inserted rules pos args.
Proof.
  unfold inserted. apply elem_of_app. right. apply elem_of_cons. by left.
Qed.

(** ** The loops of [Exists] and [Delete] *)

Lemma range_has_true rules target :
  range_has rules target = true ↔ target ∈ rules.
Proof.
  induction rules as [|rule rest IH]; simpl.
  - split; [done | by intros ?%elem_of_nil].
  - destruct (decide (rule = target)) as [->|Hne].
    + split; [intros _; left | done].
    + rewrite IH. split; [by right | intros [?|?]%elem_of_cons; done].
Qed.

Lemma range_index_first (l1 l2 : list string) (target : string) i0 :
  target ∉ l1 →
  range_index (l1 ++ target :: l2) target i0 = Some (i0 + length l1).
Proof.
  revert i0. induction l1 as [|rule l1 IH]; intros i0 Hnot; simpl.
  - rewrite decide_True by done. f_equal. lia.
  - apply not_elem_of_cons in Hnot as [Hne Hnot].
    rewrite decide_False by done. rewrite IH by done. f_equal. lia.
Qed.

Lemma range_index_none (rules : list string) (target : string) i0 :
  target ∉ rules → range_index rules target i0 = None.
Proof.
  revert i0. induction rules as [|rule rest IH]; intros i0 Hnot; simpl; [done|].
  apply not_elem_of_cons in Hnot as [Hne Hnot].
  rewrite decide_False by done. by apply IH.
Qed.

(** A chain that holds [target] splits at its first copy. *)
Lemma first_copy (rules : list string) (target : string) :
  target ∈ rules → ∃ l1 l2, rules = l1 ++ target :: l2 ∧ target ∉ l1.
Proof.
  induction rules as [|rule rest IH]; [by intros ?%elem_of_nil|].
  intros Hin. destruct (decide (rule = target)) as [->|Hne].
  - exists [], rest. split; [done | apply not_elem_of_nil].
  - apply elem_of_cons in Hin as [?|Hin]; [done|].
    destruct (IH Hin) as (l1 & l2 & -> & Hnot).
    exists (rule :: l1), l2. split; [done|].
    apply not_elem_of_cons. split; [congruence | done].
Qed.

Lemma Exists_known f table chain args rules :
  n f !! key table chain = Some rules →
  Exists f table chain args
  = Return (f, (range_has rules (Go.Join args " "), None)).
Proof. intros Hk. unfold Exists. by rewrite Hk. Qed.

(** ** [Insert], [Exists] and [Append] on a chain *)

(** C1. On a known (table, chain) pair and for every position [pos] with
    [1 <= pos <= len(existing) + 1], [Insert] returns [nil], records nothing on
    the test handle and touches no other chain; the new rule (the arguments
    joined by a space) is the rule at 1-based position [pos], the rules that
    were before [pos] keep their positions, and every rule that was at a
    position [q >= pos] is now at [q + 1]; [Exists] with the same arguments
    then answers [(true, nil)]. *)
Theorem Insert_places_rule f table chain pos args rules :
  n f !! key table chain = Some rules →
  (1 ≤ pos ≤ Go.len rules + 1)%Z →
  ∃ f' rules',
    Insert f table chain pos args = Return (f', None)
    ∧ t f' = t f
    ∧ n f' = <[key table chain := rules']> (n f)
    ∧ Go.len rules' = (Go.len rules + 1)%Z
    ∧ rule_at rules' pos = Some (Go.Join args " ")
    ∧ (∀ q, (1 ≤ q < pos)%Z → rule_at rules' q = rule_at rules q)
    ∧ (∀ q, (pos ≤ q)%Z → rule_at rules' (q + 1) = rule_at rules q)
    ∧ Exists f' table chain args = Return (f', (true, None)).
Proof.
  intros Hk Hpos.
  exists (set_chain f (key table chain) (inserted rules pos args)),
    (inserted rules pos args).
  split; [by apply Insert_in_range|].
  repeat split.
  - by apply inserted_len.
  - by apply inserted_at.
  - by apply inserted_before.
  - by apply inserted_after.
  - erewrite Exists_known by apply lookup_insert_eq.
    pose proof (inserted_elem rules pos args) as Hin.
    apply range_has_true in Hin. by rewrite Hin.
Qed.

Lemma Insert_places_rule_witness :
  ∃ f' rules',
    Insert (newIPTables []) "filter" "INPUT" 1 ["-j"; "ts-input"]
      = Return (f', None)
    ∧ t f' = []
    ∧ n f' = <["filter/INPUT" := rules']> (n (newIPTables []))
    ∧ Go.len rules' = 1%Z
    ∧ rule_at rules' 1 = Some "-j ts-input"
    ∧ (∀ q, (1 ≤ q < 1)%Z → rule_at rules' q = rule_at [] q)
    ∧ (∀ q, (1 ≤ q)%Z → rule_at rules' (q + 1) = rule_at [] q)
    ∧ Exists f' "filter" "INPUT" ["-j"; "ts-input"]
      = Return (f', (true, None)).
Proof.
  apply (Insert_places_rule (newIPTables []) "filter" "INPUT" 1
           ["-j"; "ts-input"] []).
  - reflexivity.
  - unfold Go.len. simpl. lia.
Defined.

(** C2, as stated, fails: only the argument list [-j, ts-input] was ever
    inserted, and [Exists] answers [(true, nil)] for the different argument
    list whose single element is ["-j ts-input"]. *)
Lemma Exists_conflates_argument_lists :
  ["-j"; "ts-input"] ≠ ["-j ts-input"]
  ∧ Exists (newIPTables []) "filter" "INPUT" ["-j ts-input"]
    = Return (newIPTables [], (false, None))
  ∧ ∃ f',
      Insert (newIPTables []) "filter" "INPUT" 1 ["-j"; "ts-input"]
        = Return (f', None)
      ∧ Exists f' "filter" "INPUT" ["-j ts-input"] = Return (f', (true, None)).
Proof.
  split; [discriminate|]. split; [reflexivity|].
  eexists. split; reflexivity.
Qed.

(** C2, amended. [Exists] always returns and never changes a chain. It
    answers [(true, nil)] exactly when the pair is known and some rule of the
    chain is equal to the arguments joined by single spaces; it returns an
    error exactly when the pair is unknown, and then the answer is [false]. *)
Theorem Exists_iff_joined_present f table chain args :
  ∃ f' found err,
    Exists f table chain args = Return (f', (found, err))
    ∧ n f' = n f
    ∧ (found = true ∧ err = None
       ↔ ∃ rules, n f !! key table chain = Some rules
                  ∧ Go.Join args " " ∈ rules)
    ∧ (err ≠ None ↔ n f !! key table chain = None)
    ∧ (err ≠ None → found = false ∧ err = Some errExec).
Proof.
  unfold Exists. destruct (n f !! key table chain) as [rules|] eqn:Hk.
  - exists f, (range_has rules (Go.Join args " ")), None.
    split; [done|]. split; [done|]. split; [|split].
    + split.
      * intros [Hfound _]. exists rules. split; [done|].
        by apply range_has_true.
      * intros (rules' & [= <-] & Hin). split; [|done].
        by apply range_has_true.
    + split; intros ?; done.
    + intros ?; done.
  - eexists _, false, (Some errExec).
    split; [done|]. split; [done|]. split; [|split].
    + split; [by intros [? _] | by intros (? & ? & _)].
    + split; intros ?; done.
    + intros _. done.
Qed.

Lemma Exists_iff_joined_present_witness :
  ∃ f' found err,
    Exists (newIPTables []) "filter" "ts-input" ["-j"; "DROP"]
      = Return (f', (found, err))
    ∧ n f' = n (newIPTables [])
    ∧ (found = true ∧ err = None
       ↔ ∃ rules, n (newIPTables []) !! key "filter" "ts-input" = Some rules
                  ∧ Go.Join ["-j"; "DROP"] " " ∈ rules)
    ∧ (err ≠ None ↔ n (newIPTables []) !! key "filter" "ts-input" = None)
    ∧ (err ≠ None → found = false ∧ err = Some errExec).
Proof.
  exact (Exists_iff_joined_present (newIPTables []) "filter" "ts-input"
           ["-j"; "DROP"]).
Defined.

(** C3. [Append] is [Insert] at position [len(existing) + 1], with the same
    resulting state and the same outcome: on a known pair the joined
    arguments become the last rule and [nil] is returned, on an unknown pair
    the error of [Insert] is returned. *)
Theorem Append_is_Insert_at_end f table chain args :
  Append f table chain args = Append_as_specified f table chain args
  ∧ match n f !! key table chain with
    | Some rules =>
        Append f table chain args
        = Return (set_chain f (key table chain) (rules ++ [Go.Join args " "]),
                  None)
    | None =>
        Append f table chain args
        = Return (t_Errorf f "unknown table/chain %s"
                    [ArgStr (key table chain)], Some errExec)
    end.
Proof.
  split; [reflexivity|].
  unfold Append. destruct (n f !! key table chain) as [rules|] eqn:Hk.
  - simpl. rewrite (Insert_in_range _ _ _ _ _ rules);
      [|done|unfold Go.len; lia].
    unfold inserted, Go.len.
    replace (Z.to_nat (Z.of_nat (length rules) + 1 - 1)) with (length rules)
      by lia.
    by rewrite take_ge, drop_ge by lia.
  - by apply Insert_unknown.
Qed.

(** C6, as stated, fails: position 0 is within the bound [len(existing) + 1]
    of a known chain, and [Insert] neither succeeds nor returns an error. *)
Lemma Insert_position_zero_panics :
  n (newIPTables []) !! key "filter" "INPUT" = Some []
  ∧ (0 ≤ Go.len ([] : list string) + 1)%Z
  ∧ Insert (newIPTables []) "filter" "INPUT" 0 ["-j"; "ts-input"] = Panic
  ∧ ¬ (∃ f', Insert (newIPTables []) "filter" "INPUT" 0 ["-j"; "ts-input"]
             = Return (f', None)).
Proof.
  split; [reflexivity|]. split; [done|]. split; [reflexivity|].
  intros [f' Hf']. discriminate Hf'.
Qed.

(** C6, amended. [Insert] returns an error exactly when the pair is unknown
    or the position exceeds [len(existing) + 1]; on a known pair and for
    every position with [1 <= position <= len(existing) + 1] it returns
    [nil]. *)
Theorem Insert_error_iff f table chain pos args :
  ((∃ f' e, Insert f table chain pos args = Return (f', Some e))
   ↔ (n f !! key table chain = None
      ∨ ∃ rules, n f !! key table chain = Some rules
                 ∧ (pos > Go.len rules + 1)%Z))
  ∧ (∀ rules, n f !! key table chain = Some rules →
       (1 ≤ pos ≤ Go.len rules + 1)%Z →
       ∃ f', Insert f table chain pos args = Return (f', None)).
Proof.
  split.
  - destruct (n f !! key table chain) as [rules|] eqn:Hk.
    + destruct (decide (pos > Go.len rules + 1)%Z) as [Hfar|Hnear].
      * split; [intros _; right; by exists rules|intros _].
        rewrite (Insert_too_far _ _ _ _ _ rules) by done. by eexists _, _.
      * split.
        -- intros (f' & e & Hins). exfalso.
           destruct (decide (1 ≤ pos)%Z).
           ++ rewrite (Insert_in_range _ _ _ _ _ rules) in Hins by (done || lia).
              done.
           ++ rewrite (Insert_not_positive _ _ _ _ _ rules) in Hins
                by (done || lia).
              done.
        -- intros [?|(rules' & [= <-] & ?)]; done.
    + split; [by left|intros _].
      rewrite Insert_unknown by done. by eexists _, _.
  - intros rules Hk Hpos. rewrite (Insert_in_range _ _ _ _ _ rules) by done.
    by eexists.
Qed.

Lemma Insert_error_iff_witness :
  ∃ f', Insert (newIPTables []) "nat" "POSTROUTING" 1 ["-j"; "ts-postrouting"]
        = Return (f', None).
Proof.
  apply (proj2 (Insert_error_iff (newIPTables []) "nat" "POSTROUTING" 1
                  ["-j"; "ts-postrouting"]) []).
  - reflexivity.
  - unfold Go.len. simpl. lia.
Defined.

(** C10. The validation of [Insert] checks the upper bound only. On a known
    pair, if [1 <= position <= len(existing) + 1] then the two slice
    expressions of the copy and the indexed store are within bounds and the
    call returns [nil]; if [position <= 0] the validation does not reject the
    call (it returns no error), index [position - 1] is outside the rule
    slice, and the call panics. *)
Theorem Insert_bounds f table chain pos args rules :
  n f !! key table chain = Some rules →
  ((1 ≤ pos ≤ Go.len rules + 1)%Z →
     ∃ shifted stored,
       Go.copy_within (Go.append rules "") pos (pos - 1) = Return shifted
       ∧ Go.store shifted (pos - 1) (Go.Join args " ") = Return stored
       ∧ Insert f table chain pos args
         = Return (set_chain f (key table chain) stored, None))
  ∧ ((pos ≤ 0)%Z →
       bool_decide (pos > Go.len rules + 1)%Z = false
       ∧ ¬ (0 ≤ pos - 1 < Go.len (Go.append rules ""))%Z
       ∧ Insert f table chain pos args = Panic
       ∧ ¬ (∃ f' e, Insert f table chain pos args = Return (f', Some e))).
Proof.
  intros Hk. split.
  - intros Hpos. pose proof (Insert_in_range f table chain pos args rules Hk Hpos)
      as Hins.
    unfold Insert in Hins. rewrite Hk in Hins.
    rewrite bool_decide_eq_false_2 in Hins by lia.
    destruct (Go.copy_within (Go.append rules "") pos (pos - 1))
      as [shifted|] eqn:Hcw; cbn [mbind result_bind] in Hins; [|done].
    destruct (Go.store shifted (pos - 1) (Go.Join args " ")) as [stored|] eqn:Hst;
      cbn [mbind result_bind] in Hins; [|done].
    exists shifted, stored. split; [done|]. split; [done|].
    unfold Insert. rewrite Hk. rewrite bool_decide_eq_false_2 by lia.
    rewrite Hcw. cbn [mbind result_bind]. by rewrite Hst.
  - intros Hpos. assert (0 ≤ Go.len rules)%Z by (unfold Go.len; lia).
    split; [apply bool_decide_eq_false_2; lia|].
    split; [lia|].
    rewrite (Insert_not_positive _ _ _ _ _ rules) by done.
    split; [done|]. by intros (? & ? & ?).
Qed.

Lemma Insert_bounds_witness :
  (∃ shifted stored,
     Go.copy_within (Go.append [] "") 1 (1 - 1) = Return shifted
     ∧ Go.store shifted (1 - 1) (Go.Join ["-i"; "lo"] " ") = Return stored
     ∧ Insert (newIPTables []) "filter" "INPUT" 1 ["-i"; "lo"]
       = Return (set_chain (newIPTables []) (key "filter" "INPUT") stored, None))
  ∧ Insert (newIPTables []) "filter" "INPUT" 0 ["-i"; "lo"] = Panic.
Proof.
  split.
  - apply (proj1 (Insert_bounds (newIPTables []) "filter" "INPUT" 1
                    ["-i"; "lo"] [] eq_refl)).
    unfold Go.len. simpl. lia.
  - apply (proj2 (Insert_bounds (newIPTables []) "filter" "INPUT" 0
                    ["-i"; "lo"] [] eq_refl)).
    lia.
Defined.

(** ** [Delete] and [DeleteChain] *)

Lemma Delete_present f table chain args l1 l2 :
  n f !! key table chain = Some (l1 ++ Go.Join args " " :: l2) →
  Go.Join args " " ∉ l1 →
  Delete f table chain args
  = Return (set_chain f (key table chain) (l1 ++ l2), None).
Proof.
  intros Hk Hnot. unfold Delete. rewrite Hk.
  rewrite range_index_first by done. cbn [plus].
  rewrite slice_to_in by (rewrite length_app; lia).
  replace (Z.of_nat (length l1) + 1)%Z with (Z.of_nat (S (length l1))) by lia.
  rewrite slice_from_in by (rewrite length_app; cbn [length]; lia).
  cbn [mbind result_bind].
  rewrite take_app_length.
  change (l1 ++ Go.Join args " " :: l2) with (l1 ++ [Go.Join args " "] ++ l2).
  rewrite (assoc_L (++)).
  replace (S (length l1)) with (length (l1 ++ [Go.Join args " "]))
    by (rewrite length_app; cbn [length]; lia).
  by rewrite drop_app_length.
Qed.

Lemma Delete_absent f table chain args rules :
  n f !! key table chain = Some rules →
  Go.Join args " " ∉ rules →
  Delete f table chain args
  = Return (t_Errorf f "delete of unknown rule %q from %s"
              [ArgStr (Go.Join args " "); ArgStr (key table chain)],
            Some errExec).
Proof.
  intros Hk Hnot. unfold Delete. rewrite Hk.
  by rewrite range_index_none by done.
Qed.

Lemma Delete_unknown f table chain args :
  n f !! key table chain = None →
  Delete f table chain args
  = Return (t_Errorf f "unknown table/chain %s" [ArgStr (key table chain)],
            Some errExec).
Proof. intros Hk. unfold Delete. by rewrite Hk. Qed.

(** C4, as stated, fails: the only rule ever inserted has the argument
    list [-j, ts-input], and [Delete] with the different argument list whose
    single element is ["-j ts-input"] returns [nil] and removes it, where
    the claim has it return an error. *)
Lemma Delete_conflates_argument_lists :
  ["-j ts-input"] ≠ ["-j"; "ts-input"]
  ∧ ∃ f1,
      Insert (newIPTables []) "filter" "INPUT" 1 ["-j"; "ts-input"]
        = Return (f1, None)
      ∧ n f1 !! "filter/INPUT" = Some ["-j ts-input"]
      ∧ Delete f1 "filter" "INPUT" ["-j ts-input"]
        = Return (newIPTables [], None)
      ∧ n (newIPTables []) !! "filter/INPUT" = Some [].
Proof.
  split; [discriminate|].
  eexists. split; [reflexivity|]. split; [reflexivity|].
  split; [vm_compute|]; reflexivity.
Qed.

(** C4, amended. [Delete] always returns. The rule it looks for is the
    arguments joined by single spaces: nothing for no argument, the argument
    itself for one, and the first argument, a space and the rest joined for
    more. On an unknown pair it returns [errExec]. On a known pair, either no
    rule of the chain is equal to the joined arguments, and it returns
    [errExec], or the chain is [l1 ++ rule :: l2] with no copy of the rule
    in [l1], and it returns [nil], records nothing on the test handle and
    stores [l1 ++ l2] under the key of the chain: the first copy is removed
    and the other rules keep their order. In the error cases no chain
    changes. *)
Theorem Delete_removes_first_joined f table chain args :
  ∃ f' err,
    Delete f table chain args = Return (f', err)
    ∧ match args with
      | [] => Go.Join args " " = ""
      | [a] => Go.Join args " " = a
      | a :: rest => Go.Join args " " = a +:+ " " +:+ Go.Join rest " "
      end
    ∧ match n f !! key table chain with
      | None => err = Some errExec ∧ n f' = n f
      | Some rules =>
          ((Go.Join args " " ∉ rules) ∧ err = Some errExec ∧ n f' = n f)
          ∨ (∃ l1 l2,
               rules = l1 ++ Go.Join args " " :: l2
               ∧ (Go.Join args " " ∉ l1)
               ∧ err = None
               ∧ t f' = t f
               ∧ n f' = <[key table chain := l1 ++ l2]> (n f)
               ∧ n f' !! key table chain = Some (l1 ++ l2))
      end.
Proof.
  assert (match args with
          | [] => Go.Join args " " = ""
          | [a] => Go.Join args " " = a
          | a :: rest => Go.Join args " " = a +:+ " " +:+ Go.Join rest " "
          end) as HJoin.
  { destruct args as [|a [|b rest]]; reflexivity. }
  destruct (n f !! key table chain) as [rules|] eqn:Hk.
  - destruct (decide (Go.Join args " " ∈ rules)) as [Hin|Hnot].
    + destruct (first_copy _ _ Hin) as (l1 & l2 & -> & Hnot).
      eexists _, _. split; [by apply Delete_present|]. split; [done|].
      right. exists l1, l2. split; [done|]. split; [done|].
      split; [done|]. split; [done|]. split; [done|].
      apply lookup_insert_eq.
    + eexists _, _. split; [by apply (Delete_absent _ _ _ _ rules)|].
      split; [done|]. by left.
  - eexists _, _. split; [by apply Delete_unknown|]. done.
Qed.

(** C5. [DeleteChain] always returns. It returns [nil] exactly when the chain
    exists and holds no rule, and then the chain is removed from the map; in
    every other case (the chain holds a rule, or it does not exist) it
    returns an error and the map of chains, with every rule, is unchanged. *)
Theorem DeleteChain_only_when_empty f table chain :
  ∃ f' err,
    DeleteChain f table chain = Return (f', err)
    ∧ (err = None ↔ n f !! key table chain = Some [])
    ∧ (err = None →
         n f' = delete (key table chain) (n f)
         ∧ n f' !! key table chain = None
         ∧ t f' = t f)
    ∧ (err ≠ None → err = Some errExec ∧ n f' = n f).
Proof.
  unfold DeleteChain. destruct (n f !! key table chain) as [rules|] eqn:Hk.
  - destruct rules as [|rule rest].
    + rewrite bool_decide_eq_false_2 by (intros Hne; by apply Hne).
      exists (delete_chain f (key table chain)), None.
      split; [done|]. split; [done|]. split; [|done].
      intros _. split; [done|]. split; [apply lookup_delete_eq | done].
    + rewrite bool_decide_eq_true_2 by (unfold Go.len; cbn [length]; lia).
      eexists _, (Some errExec).
      split; [done|]. split; [|split]; [split| |]; done.
  - eexists _, (Some errExec).
    split; [done|]. split; [|split]; [split| |]; done.
Qed.

Lemma DeleteChain_only_when_empty_witness :
  ∃ f' err,
    DeleteChain (newIPTables []) "nat" "OUTPUT" = Return (f', err)
    ∧ (err = None ↔ n (newIPTables []) !! key "nat" "OUTPUT" = Some [])
    ∧ (err = None →
         n f' = delete (key "nat" "OUTPUT") (n (newIPTables []))
         ∧ n f' !! key "nat" "OUTPUT" = None
         ∧ t f' = t (newIPTables []))
    ∧ (err ≠ None → err = Some errExec ∧ n f' = n (newIPTables [])).
Proof.
  exact (DeleteChain_only_when_empty (newIPTables []) "nat" "OUTPUT").
Defined.

(** ** Copies of a rule *)

Lemma copies_app target (l1 l2 : list string) :
  copies target (l1 ++ l2) = copies target l1 + copies target l2.
Proof. unfold copies. by rewrite filter_app, length_app. Qed.

Lemma copies_cons_eq target (l : list string) :
  copies target (target :: l) = S (copies target l).
Proof. unfold copies. by rewrite filter_cons_True. Qed.

Lemma copies_inserted rules pos args :
  copies (Go.Join args " ") (inserted rules pos args)
  = S (copies (Go.Join args " ") rules).
Proof.
  unfold inserted. rewrite copies_app, copies_cons_eq.
  rewrite <- (take_drop (Z.to_nat (pos - 1)) rules) at 3.
  rewrite copies_app. lia.
Qed.

Lemma copies_removed target (l1 l2 : list string) :
  copies target (l1 ++ target :: l2) = S (copies target (l1 ++ l2)).
Proof. rewrite !copies_app, copies_cons_eq. lia. Qed.

Lemma copies_elem target (rules : list string) :
  target ∈ rules ↔ copies target rules ≠ 0.
Proof.
  unfold copies. induction rules as [|rule rest IH].
  - split; [by intros ?%elem_of_nil | done].
  - destruct (decide (rule = target)) as [->|Hne].
    + rewrite filter_cons_True by done. split; [done | intros _; by left].
    + rewrite filter_cons_False by done. rewrite <- IH.
      split; [intros [?|?]%elem_of_cons; done | by right].
Qed.

(** C8, as stated, fails: after the same arguments are inserted twice in a
    fresh chain, the chain differs from the chain after one insertion, and
    after a single [Delete] of these arguments [Exists] still answers
    [(true, nil)]. *)
Lemma Insert_twice_needs_two_deletes :
  ∃ f1 f2 f3,
    Insert (newIPTables []) "filter" "INPUT" 1 ["-j"; "ts-input"]
      = Return (f1, None)
    ∧ Insert f1 "filter" "INPUT" 1 ["-j"; "ts-input"] = Return (f2, None)
    ∧ n f1 !! "filter/INPUT" = Some ["-j ts-input"]
    ∧ n f2 !! "filter/INPUT" = Some ["-j ts-input"; "-j ts-input"]
    ∧ n f2 ≠ n f1
    ∧ Delete f2 "filter" "INPUT" ["-j"; "ts-input"] = Return (f3, None)
    ∧ Exists f3 "filter" "INPUT" ["-j"; "ts-input"]
      = Return (f3, (true, None)).
Proof.
  eexists _, _, _.
  split; [reflexivity|]. split; [reflexivity|].
  split; [reflexivity|]. split; [reflexivity|].
  split; [|split; reflexivity].
  intros Heq. apply (f_equal (λ m, m !! "filter/INPUT")) in Heq.
  discriminate Heq.
Qed.

(** C8, amended. The controller keeps one copy of a rule per [Insert]: on a
    known pair, inserting the same arguments twice (at any two valid
    positions) leaves two more copies of the joined arguments in the chain
    than before, a state that differs from the state after one insertion; a
    [Delete] of these arguments then returns [nil] and removes exactly one
    copy, so that [Exists] still answers [(true, nil)]. *)
Theorem Insert_twice_keeps_two_copies f table chain p1 p2 args rules :
  n f !! key table chain = Some rules →
  (1 ≤ p1 ≤ Go.len rules + 1)%Z →
  (1 ≤ p2 ≤ Go.len rules + 2)%Z →
  ∃ f1 f2 f3 rules1 rules2 rules3,
    Insert f table chain p1 args = Return (f1, None)
    ∧ Insert f1 table chain p2 args = Return (f2, None)
    ∧ Delete f2 table chain args = Return (f3, None)
    ∧ n f1 !! key table chain = Some rules1
    ∧ n f2 !! key table chain = Some rules2
    ∧ n f3 !! key table chain = Some rules3
    ∧ copies (Go.Join args " ") rules1 = 1 + copies (Go.Join args " ") rules
    ∧ copies (Go.Join args " ") rules2 = 2 + copies (Go.Join args " ") rules
    ∧ copies (Go.Join args " ") rules3 = 1 + copies (Go.Join args " ") rules
    ∧ n f2 ≠ n f1
    ∧ Exists f3 table chain args = Return (f3, (true, None)).
Proof.
  intros Hk Hp1 Hp2.
  set (k := key table chain). set (J := Go.Join args " ").
  set (rules1 := inserted rules p1 args).
  set (f1 := set_chain f k rules1).
  set (rules2 := inserted rules1 p2 args).
  set (f2 := set_chain f1 k rules2).
  assert (n f1 !! k = Some rules1) as Hk1 by apply lookup_insert_eq.
  assert (n f2 !! k = Some rules2) as Hk2 by apply lookup_insert_eq.
  assert (copies J rules1 = 1 + copies J rules) as Hc1
    by apply copies_inserted.
  assert (copies J rules2 = 2 + copies J rules) as Hc2.
  { unfold rules2, J. rewrite copies_inserted. fold J. lia. }
  destruct (first_copy rules2 J) as (l1 & l2 & Hsplit & Hnot).
  { apply copies_elem. lia. }
  assert (copies J (l1 ++ l2) = 1 + copies J rules) as Hc3.
  { rewrite Hsplit, copies_removed in Hc2. lia. }
  set (f3 := set_chain f2 k (l1 ++ l2)).
  assert (n f3 !! k = Some (l1 ++ l2)) as Hk3 by apply lookup_insert_eq.
  exists f1, f2, f3, rules1, rules2, (l1 ++ l2).
  split; [by apply Insert_in_range|].
  split.
  { apply Insert_in_range; [done|].
    unfold rules1. rewrite inserted_len by done. lia. }
  split.
  { apply (Delete_present f2 table chain args l1 l2); [|done].
    fold J. rewrite <- Hsplit. exact Hk2. }
  do 6 (split; [done|]).
  split.
  - intros Heq. apply (f_equal (λ m, copies J (default [] (m !! k)))) in Heq.
    rewrite Hk1, Hk2 in Heq. simpl in Heq. lia.
  - rewrite (Exists_known _ _ _ _ (l1 ++ l2)) by done.
    assert (J ∈ l1 ++ l2) as Hin by (apply copies_elem; lia).
    apply range_has_true in Hin. fold J. by rewrite Hin.
Qed.

Lemma Insert_twice_keeps_two_copies_witness :
  ∃ f1 f2 f3 rules1 rules2 rules3,
    Insert (newIPTables []) "filter" "FORWARD" 1 ["-j"; "ts-forward"]
      = Return (f1, None)
    ∧ Insert f1 "filter" "FORWARD" 2 ["-j"; "ts-forward"] = Return (f2, None)
    ∧ Delete f2 "filter" "FORWARD" ["-j"; "ts-forward"] = Return (f3, None)
    ∧ n f1 !! key "filter" "FORWARD" = Some rules1
    ∧ n f2 !! key "filter" "FORWARD" = Some rules2
    ∧ n f3 !! key "filter" "FORWARD" = Some rules3
    ∧ copies (Go.Join ["-j"; "ts-forward"] " ") rules1
      = 1 + copies (Go.Join ["-j"; "ts-forward"] " ") []
    ∧ copies (Go.Join ["-j"; "ts-forward"] " ") rules2
      = 2 + copies (Go.Join ["-j"; "ts-forward"] " ") []
    ∧ copies (Go.Join ["-j"; "ts-forward"] " ") rules3
      = 1 + copies (Go.Join ["-j"; "ts-forward"] " ") []
    ∧ n f2 ≠ n f1
    ∧ Exists f3 "filter" "FORWARD" ["-j"; "ts-forward"]
      = Return (f3, (true, None)).
Proof.
  apply (Insert_twice_keeps_two_copies (newIPTables []) "filter" "FORWARD" 1 2
           ["-j"; "ts-forward"] []).
  - reflexivity.
  - unfold Go.len. simpl. lia.
  - unfold Go.len. simpl. lia.
Defined.

(** ** Errors leave the chains alone *)

(** C9. Whenever [Insert], [Append], [Delete], [NewChain], [ClearChain] or
    [DeleteChain] returns a non-nil error, the map of chains (the set of
    chains and the ordered rules of each) is what it was before the call;
    [Exists] never changes it, whatever it returns. *)
Theorem error_leaves_chains_unchanged f table chain pos args :
  (∀ f' e, Insert f table chain pos args = Return (f', Some e) → n f' = n f)
  ∧ (∀ f' e, Append f table chain args = Return (f', Some e) → n f' = n f)
  ∧ (∀ f' e, Delete f table chain args = Return (f', Some e) → n f' = n f)
  ∧ (∀ f' e, NewChain f table chain = Return (f', Some e) → n f' = n f)
  ∧ (∀ f' e, ClearChain f table chain = Return (f', Some e) → n f' = n f)
  ∧ (∀ f' e, DeleteChain f table chain = Return (f', Some e) → n f' = n f)
  ∧ (∀ f' found err,
       Exists f table chain args = Return (f', (found, err)) → n f' = n f).
Proof.
  assert (∀ p f' e,
    Insert f table chain p args = Return (f', Some e) → n f' = n f) as HIns.
  { intros p f' e. unfold Insert.
    destruct (n f !! key table chain) as [rules|]; [|by intros [= <- _]].
    case_bool_decide; [by intros [= <- _]|].
    destruct (Go.copy_within _ _ _) as [shifted|];
      cbn [mbind result_bind]; [|done].
    destruct (Go.store _ _ _) as [stored|]; cbn [mbind result_bind]; done. }
  split; [apply HIns|]. split; [apply HIns|].
  split; [|split; [|split; [|split]]].
  - intros f' e. unfold Delete.
    destruct (n f !! key table chain) as [rules|]; [|by intros [= <- _]].
    destruct (range_index _ _ _) as [i|]; [|by intros [= <- _]].
    destruct (Go.slice_to _ _) as [front|]; cbn [mbind result_bind]; [|done].
    destruct (Go.slice_from _ _) as [back|]; cbn [mbind result_bind]; done.
  - intros f' e. unfold NewChain.
    destruct (n f !! key table chain); [by intros [= <- _] | done].
  - intros f' e. unfold ClearChain.
    destruct (n f !! key table chain); [done | by intros [= <- _]].
  - intros f' e. unfold DeleteChain.
    destruct (n f !! key table chain) as [rules|]; [|by intros [= <- _]].
    case_bool_decide; [by intros [= <- _] | done].
  - intros f' found err. unfold Exists.
    destruct (n f !! key table chain); by intros [= <- _ _].
Qed.

Lemma error_leaves_chains_unchanged_witness :
  (∃ f', Insert (newIPTables []) "filter" "INPUT" 5 ["-j"; "ts-input"]
           = Return (f', Some errExec)
         ∧ n f' = n (newIPTables []))
  ∧ (∃ f', Append (newIPTables []) "filter" "ts-input" ["-j"; "DROP"]
             = Return (f', Some errExec)
           ∧ n f' = n (newIPTables []))
  ∧ (∃ f', Delete (newIPTables []) "filter" "INPUT" ["-j"; "ts-input"]
             = Return (f', Some errExec)
           ∧ n f' = n (newIPTables []))
  ∧ (∃ f', NewChain (newIPTables []) "filter" "INPUT"
             = Return (f', Some errExec)
           ∧ n f' = n (newIPTables []))
  ∧ (∃ f', ClearChain (newIPTables []) "filter" "ts-input"
             = Return (f', Some (errorsNew "exitcode:1"))
           ∧ n f' = n (newIPTables []))
  ∧ (∃ f', DeleteChain (newIPTables []) "filter" "ts-input"
             = Return (f', Some errExec)
           ∧ n f' = n (newIPTables []))
  ∧ (∃ f', Exists (newIPTables []) "filter" "ts-input" ["-j"; "DROP"]
             = Return (f', (false, Some errExec))
           ∧ n f' = n (newIPTables [])).
Proof.
  pose proof (error_leaves_chains_unchanged (newIPTables []) "filter" "INPUT" 5
                ["-j"; "ts-input"]) as (HIns & _ & HDel & HNew & _).
  pose proof (error_leaves_chains_unchanged (newIPTables []) "filter" "ts-input"
                1 ["-j"; "DROP"]) as (_ & HApp & _ & _ & HClr & HDch & HEx).
  split; [eexists; split; [|apply (HIns _ errExec)]; reflexivity|].
  split; [eexists; split; [|apply (HApp _ errExec)]; reflexivity|].
  split; [eexists; split; [|apply (HDel _ errExec)]; reflexivity|].
  split; [eexists; split; [|apply (HNew _ errExec)]; reflexivity|].
  split;
    [eexists; split; [|apply (HClr _ (errorsNew "exitcode:1"))]; reflexivity|].
  split; [eexists; split; [|apply (HDch _ errExec)]; reflexivity|].
  eexists; split; [|apply (HEx _ false (Some errExec))]; reflexivity.
Defined.

(** ** The hooks of the runner *)

Module RunnerFacts.
Import Runner.






(** *** One hook *)






(** *** All the hooks *)















End RunnerFacts.

(** * Further properties of the controller *)

(** ** The outcome of each call, case by case *)

Lemma fake_eta f : mkFake (t f) (n f) = f.
Proof. by destruct f. Qed.

Lemma Insert_cases f table chain pos args :
  Insert f table chain pos args
  = match n f !! key table chain with
    | None =>
        Return (t_Errorf f "unknown table/chain %s"
                  [ArgStr (key table chain)], Some errExec)
    | Some rules =>
        if decide (pos > Go.len rules + 1)%Z then
          Return (t_Errorf f "bad position %d in %s"
                    [ArgInt pos; ArgStr (key table chain)], Some errExec)
        else if decide (pos ≤ 0)%Z then Panic
        else Return (set_chain f (key table chain) (inserted rules pos args),
                     None)
    end.
Proof.
  destruct (n f !! key table chain) as [rules|] eqn:Hk.
  - destruct (decide (pos > Go.len rules + 1)%Z).
    { by apply (Insert_too_far _ _ _ _ _ rules). }
    destruct (decide (pos ≤ 0)%Z).
    { by apply (Insert_not_positive _ _ _ _ _ rules). }
    apply Insert_in_range; [done | lia].
  - by apply Insert_unknown.
Qed.

Lemma Append_known f table chain args rules :
  n f !! key table chain = Some rules →
  Append f table chain args
  = Return (set_chain f (key table chain) (rules ++ [Go.Join args " "]), None).
Proof.
  intros Hk. unfold Append. rewrite Hk. simpl.
  rewrite (Insert_in_range _ _ _ _ _ rules); [|done|unfold Go.len; lia].
  unfold inserted, Go.len.
  replace (Z.to_nat (Z.of_nat (length rules) + 1 - 1)) with (length rules)
    by lia.
  by rewrite take_ge, drop_ge by lia.
Qed.

Lemma Append_unknown f table chain args :
  n f !! key table chain = None →
  Append f table chain args
  = Return (t_Errorf f "unknown table/chain %s" [ArgStr (key table chain)],
            Some errExec).
Proof.
  intros Hk. unfold Append. rewrite Hk. by apply Insert_unknown.
Qed.

Lemma Delete_cases f table chain args :
  (∃ l1 l2,
     n f !! key table chain = Some (l1 ++ Go.Join args " " :: l2)
     ∧ (Go.Join args " " ∉ l1)
     ∧ Delete f table chain args
       = Return (set_chain f (key table chain) (l1 ++ l2), None))
  ∨ (∃ f', Delete f table chain args = Return (f', Some errExec)
           ∧ n f' = n f
           ∧ (∃ ev, t f' = t f ++ [ev] ∧ Failed [ev] = true)
           ∧ ∀ rules, n f !! key table chain = Some rules →
                      Go.Join args " " ∉ rules).
Proof.
  destruct (n f !! key table chain) as [rules|] eqn:Hk.
  - destruct (decide (Go.Join args " " ∈ rules)) as [Hin|Hnot].
    + destruct (first_copy _ _ Hin) as (l1 & l2 & -> & Hnot).
      left. exists l1, l2. split; [done|]. split; [done|].
      by apply Delete_present.
    + right. eexists. split; [by apply (Delete_absent _ _ _ _ rules)|].
      split; [done|]. split; [by eexists|]. by intros ? [= <-].
  - right. eexists. split; [by apply Delete_unknown|].
    split; [done|]. split; [by eexists|]. done.
Qed.

(** ** A fresh controller *)

Lemma newIPTables_lookup l k :
  n (newIPTables l) !! k = if decide (k ∈ builtin_keys) then Some [] else None.
Proof.
  unfold newIPTables, builtin_keys. cbn [n].
  rewrite !lookup_insert, lookup_empty.
  repeat case_decide; subst; try done;
    match goal with
    | H : _ ∈ _ |- _ =>
        rewrite !elem_of_cons, elem_of_nil in H; intuition congruence
    | H : _ ∉ _ |- _ =>
        rewrite !elem_of_cons, elem_of_nil in H; intuition congruence
    end.
Qed.

(** X1. A controller made by [newIPTables] knows the six built-in chains and
    no other, and each of them is empty: on a built-in pair [Exists] answers
    [(false, nil)] for every argument list and leaves the controller as it
    is; on any other pair [hasChain] is false and [Exists] returns
    [(false, errExec)], the chains being unchanged. *)
Theorem fresh_controller_chains l table chain args :
  (key table chain ∈ builtin_keys →
     n (newIPTables l) !! key table chain = Some []
     ∧ hasChain (newIPTables l) table chain = true
     ∧ Exists (newIPTables l) table chain args
       = Return (newIPTables l, (false, None)))
  ∧ (key table chain ∉ builtin_keys →
       hasChain (newIPTables l) table chain = false
       ∧ ∃ f', Exists (newIPTables l) table chain args
               = Return (f', (false, Some errExec))
               ∧ n f' = n (newIPTables l)).
Proof.
  pose proof (newIPTables_lookup l (key table chain)) as Hk.
  split; intros Hin.
  - rewrite decide_True in Hk by done.
    unfold hasChain, Exists. rewrite Hk. done.
  - rewrite decide_False in Hk by done.
    unfold hasChain, Exists. rewrite Hk. split; [done|]. by eexists.
Qed.

Lemma fresh_controller_chains_witness :
  (n (newIPTables []) !! key "nat" "PREROUTING" = Some []
   ∧ hasChain (newIPTables []) "nat" "PREROUTING" = true
   ∧ Exists (newIPTables []) "nat" "PREROUTING" ["-j"; "ts-postrouting"]
     = Return (newIPTables [], (false, None)))
  ∧ (hasChain (newIPTables []) "filter" "ts-input" = false
     ∧ ∃ f', Exists (newIPTables []) "filter" "ts-input" []
             = Return (f', (false, Some errExec))
             ∧ n f' = n (newIPTables [])).
Proof.
  split.
  - apply (proj1 (fresh_controller_chains [] "nat" "PREROUTING"
                    ["-j"; "ts-postrouting"])).
    unfold builtin_keys. rewrite !elem_of_cons. vm_compute. tauto.
  - apply (proj2 (fresh_controller_chains [] "filter" "ts-input" [])).
    unfold builtin_keys. rewrite !elem_of_cons, elem_of_nil. vm_compute.
    intuition discriminate.
Defined.

(** ** Creating, clearing and deleting a chain *)

(** X2. [NewChain] returns [nil] exactly when the pair is unknown; the chain
    then exists and is empty ([hasChain] is true and [Exists] answers
    [(false, nil)] for every argument list), the test handle is unchanged
    and no other chain changes. When the pair is known it returns [errExec],
    the test is marked as failed and the rules of the chain are kept. *)
Theorem NewChain_creates_empty f table chain :
  ∃ f' err,
    NewChain f table chain = Return (f', err)
    ∧ (err = None ↔ n f !! key table chain = None)
    ∧ (err = None →
         n f' = <[key table chain := []]> (n f)
         ∧ t f' = t f
         ∧ hasChain f' table chain = true
         ∧ ∀ args, Exists f' table chain args = Return (f', (false, None)))
    ∧ (err ≠ None →
         err = Some errExec ∧ n f' = n f ∧ Failed (t f') = true).
Proof.
  unfold NewChain. destruct (n f !! key table chain) as [rules|] eqn:Hk.
  - eexists _, (Some errExec). split; [done|].
    split; [split; done|]. split; [done|]. intros _.
    split; [done|]. split; [done|]. cbn [t t_Errorf].
    unfold Failed. rewrite existsb_app. cbn. apply orb_true_r.
  - exists (set_chain f (key table chain) []), None. split; [done|].
    split; [done|]. split; [|done]. intros _.
    assert (n (set_chain f (key table chain) []) !! key table chain = Some [])
      as Hk' by apply lookup_insert_eq.
    split; [done|]. split; [done|]. split.
    + unfold hasChain. by rewrite Hk'.
    + intros args. by rewrite (Exists_known _ _ _ _ []).
Qed.

Lemma NewChain_creates_empty_witness :
  ∃ f' err,
    NewChain (newIPTables []) "filter" "ts-input" = Return (f', err)
    ∧ (err = None ↔ n (newIPTables []) !! key "filter" "ts-input" = None)
    ∧ (err = None →
         n f' = <[key "filter" "ts-input" := []]> (n (newIPTables []))
         ∧ t f' = t (newIPTables [])
         ∧ hasChain f' "filter" "ts-input" = true
         ∧ ∀ args, Exists f' "filter" "ts-input" args
                   = Return (f', (false, None)))
    ∧ (err ≠ None →
         err = Some errExec ∧ n f' = n (newIPTables [])
         ∧ Failed (t f') = true).
Proof. exact (NewChain_creates_empty (newIPTables []) "filter" "ts-input"). Defined.

(** X3. Creating a chain that does not exist and deleting it at once gives
    back the controller as it was: both calls return [nil], and the chains
    and the test handle after [DeleteChain] are those before [NewChain]. *)
Theorem NewChain_DeleteChain_round_trip f table chain :
  n f !! key table chain = None →
  ∃ f1,
    NewChain f table chain = Return (f1, None)
    ∧ hasChain f1 table chain = true
    ∧ DeleteChain f1 table chain = Return (f, None).
Proof.
  intros Hk. exists (set_chain f (key table chain) []).
  assert (n (set_chain f (key table chain) []) !! key table chain = Some [])
    as Hk' by apply lookup_insert_eq.
  split; [unfold NewChain; by rewrite Hk|].
  split; [unfold hasChain; by rewrite Hk'|].
  unfold DeleteChain. rewrite Hk'.
  rewrite bool_decide_eq_false_2 by (intros Hne; by apply Hne).
  unfold delete_chain, set_chain. cbn [t n].
  by rewrite delete_insert_id, fake_eta.
Qed.

Lemma NewChain_DeleteChain_round_trip_witness :
  ∃ f1,
    NewChain (newIPTables []) "nat" "ts-postrouting" = Return (f1, None)
    ∧ hasChain f1 "nat" "ts-postrouting" = true
    ∧ DeleteChain f1 "nat" "ts-postrouting" = Return (newIPTables [], None).
Proof.
  apply (NewChain_DeleteChain_round_trip (newIPTables []) "nat"
           "ts-postrouting").
  reflexivity.
Defined.

(** X4. [ClearChain] returns [nil] exactly when the pair is known, and then
    the chain holds no rule whatever it held before, so that a
    [DeleteChain] that follows returns [nil] and removes the chain, and a
    second [ClearChain] changes nothing. On an unknown pair [ClearChain]
    returns an error that is not [errExec], leaves the chains as they are and
    does not mark the test as failed. *)
Theorem ClearChain_then_DeleteChain f table chain :
  ∃ f1 err,
    ClearChain f table chain = Return (f1, err)
    ∧ (err = None ↔ is_Some (n f !! key table chain))
    ∧ (err = None →
         n f1 = <[key table chain := []]> (n f)
         ∧ t f1 = t f
         ∧ ClearChain f1 table chain = Return (f1, None)
         ∧ ∃ f2, DeleteChain f1 table chain = Return (f2, None)
                 ∧ n f2 = delete (key table chain) (n f)
                 ∧ hasChain f2 table chain = false
                 ∧ t f2 = t f)
    ∧ (err ≠ None →
         err = Some (errorsNew "exitcode:1")
         ∧ err ≠ Some errExec
         ∧ n f1 = n f
         ∧ Failed (t f1) = Failed (t f)).
Proof.
  unfold ClearChain at 1.
  destruct (n f !! key table chain) as [rules|] eqn:Hk.
  - exists (set_chain f (key table chain) []), None. split; [done|].
    split; [split; [by eexists | done]|]. split; [|done]. intros _.
    assert (n (set_chain f (key table chain) []) !! key table chain = Some [])
      as Hk' by apply lookup_insert_eq.
    split; [done|]. split; [done|]. split.
    { unfold ClearChain. rewrite Hk'. unfold set_chain. cbn [t n].
      by rewrite insert_insert_eq. }
    exists (delete_chain (set_chain f (key table chain) []) (key table chain)).
    split.
    { unfold DeleteChain. rewrite Hk'.
      by rewrite bool_decide_eq_false_2 by (intros Hne; by apply Hne). }
    split; [cbn [n delete_chain set_chain]; apply delete_insert_eq|].
    split; [|done].
    unfold hasChain. cbn [n delete_chain]. by rewrite lookup_delete_eq.
  - eexists _, (Some (errorsNew "exitcode:1")). split; [done|].
    split; [split; [done | by intros [? ?]]|]. split; [done|]. intros _.
    split; [done|]. split; [done|]. split; [done|].
    cbn [t t_Logf]. unfold Failed. rewrite existsb_app. cbn.
    apply orb_false_r.
Qed.

Lemma ClearChain_then_DeleteChain_witness :
  ∃ f1 err,
    ClearChain (newIPTables []) "filter" "FORWARD" = Return (f1, err)
    ∧ (err = None ↔ is_Some (n (newIPTables []) !! key "filter" "FORWARD"))
    ∧ (err = None →
         n f1 = <[key "filter" "FORWARD" := []]> (n (newIPTables []))
         ∧ t f1 = t (newIPTables [])
         ∧ ClearChain f1 "filter" "FORWARD" = Return (f1, None)
         ∧ ∃ f2, DeleteChain f1 "filter" "FORWARD" = Return (f2, None)
                 ∧ n f2 = delete (key "filter" "FORWARD") (n (newIPTables []))
                 ∧ hasChain f2 "filter" "FORWARD" = false
                 ∧ t f2 = t (newIPTables []))
    ∧ (err ≠ None →
         err = Some (errorsNew "exitcode:1")
         ∧ err ≠ Some errExec
         ∧ n f1 = n (newIPTables [])
         ∧ Failed (t f1) = Failed (t (newIPTables []))).
Proof.
  exact (ClearChain_then_DeleteChain (newIPTables []) "filter" "FORWARD").
Defined.

(** ** [Insert] and [Delete] together *)

(** X5. If no rule in front of position [pos] is equal to the joined
    arguments (always so for [pos = 1]), then [Insert] at [pos] followed by
    [Delete] of the same arguments gives back the controller as it was: both
    calls return [nil] and the chains and the test handle are those before
    the [Insert]. *)
Theorem Insert_Delete_round_trip f table chain pos args rules :
  n f !! key table chain = Some rules →
  (1 ≤ pos ≤ Go.len rules + 1)%Z →
  Go.Join args " " ∉ take (Z.to_nat (pos - 1)) rules →
  ∃ f1,
    Insert f table chain pos args = Return (f1, None)
    ∧ Delete f1 table chain args = Return (f, None).
Proof.
  intros Hk Hpos Hfront.
  exists (set_chain f (key table chain) (inserted rules pos args)).
  split; [by apply Insert_in_range|].
  rewrite (Delete_present _ _ _ _ (take (Z.to_nat (pos - 1)) rules)
             (drop (Z.to_nat (pos - 1)) rules));
    [|apply lookup_insert_eq|done].
  unfold set_chain. cbn [t n].
  by rewrite insert_insert_eq, take_drop, insert_id, fake_eta.
Qed.

Lemma Insert_Delete_round_trip_witness :
  ∃ f1,
    Insert (set_chain (newIPTables []) "filter/INPUT" ["-j DROP"])
      "filter" "INPUT" 2 ["-j"; "ts-input"] = Return (f1, None)
    ∧ Delete f1 "filter" "INPUT" ["-j"; "ts-input"]
      = Return (set_chain (newIPTables []) "filter/INPUT" ["-j DROP"], None).
Proof.
  apply (Insert_Delete_round_trip
           (set_chain (newIPTables []) "filter/INPUT" ["-j DROP"])
           "filter" "INPUT" 2 ["-j"; "ts-input"] ["-j DROP"]).
  - reflexivity.
  - unfold Go.len. simpl. lia.
  - intros Hin. apply list_elem_of_In in Hin. vm_compute in Hin.
    intuition discriminate.
Defined.

Lemma copies_cons_ne target rule (l : list string) :
  rule ≠ target → copies target (rule :: l) = copies target l.
Proof. intros Hne. unfold copies. by rewrite filter_cons_False. Qed.

(** X6. A [Delete] that returns [nil] removes one rule and no other: the
    chain was known, the rules left are the old ones in their old order with
    one rule less, the number of copies of the joined arguments drops by
    one, the number of copies of every other rule is the same, and the test
    handle and the other chains are unchanged. *)
Theorem Delete_removes_one_copy f table chain args f' :
  Delete f table chain args = Return (f', None) →
  ∃ rules rules',
    n f !! key table chain = Some rules
    ∧ n f' = <[key table chain := rules']> (n f)
    ∧ t f' = t f
    ∧ rules' `sublist_of` rules
    ∧ Go.len rules = (Go.len rules' + 1)%Z
    ∧ copies (Go.Join args " ") rules
      = S (copies (Go.Join args " ") rules')
    ∧ ∀ rule, rule ≠ Go.Join args " " → copies rule rules' = copies rule rules.
Proof.
  intros Hdel.
  destruct (Delete_cases f table chain args)
    as [(l1 & l2 & Hk & Hnot & Hdel')|(f'' & Hdel' & _)];
    [|congruence].
  rewrite Hdel' in Hdel. injection Hdel as <-.
  exists (l1 ++ Go.Join args " " :: l2), (l1 ++ l2).
  split; [done|]. split; [done|]. split; [done|]. split; [|split; [|split]].
  - apply sublist_app; [done|]. by apply sublist_cons.
  - unfold Go.len. rewrite !length_app. cbn [length]. lia.
  - apply copies_removed.
  - intros rule Hne. rewrite !copies_app. by rewrite copies_cons_ne.
Qed.

Lemma Delete_removes_one_copy_witness :
  ∃ rules rules',
    n (set_chain (newIPTables []) "filter/INPUT" ["-j a"; "-j b"; "-j a"])
      !! key "filter" "INPUT" = Some rules
    ∧ n (set_chain (newIPTables []) "filter/INPUT" ["-j b"; "-j a"])
      = <[key "filter" "INPUT" := rules']>
          (n (set_chain (newIPTables []) "filter/INPUT"
                ["-j a"; "-j b"; "-j a"]))
    ∧ t (set_chain (newIPTables []) "filter/INPUT" ["-j b"; "-j a"])
      = t (set_chain (newIPTables []) "filter/INPUT" ["-j a"; "-j b"; "-j a"])
    ∧ rules' `sublist_of` rules
    ∧ Go.len rules = (Go.len rules' + 1)%Z
    ∧ copies (Go.Join ["-j"; "a"] " ") rules
      = S (copies (Go.Join ["-j"; "a"] " ") rules')
    ∧ ∀ rule, rule ≠ Go.Join ["-j"; "a"] " " →
              copies rule rules' = copies rule rules.
Proof.
  apply (Delete_removes_one_copy
           (set_chain (newIPTables []) "filter/INPUT" ["-j a"; "-j b"; "-j a"])
           "filter" "INPUT" ["-j"; "a"]).
  vm_compute. reflexivity.
Defined.

Lemma range_has_inserted rules pos args target :
  range_has (inserted rules pos args) target
  = range_has rules target || bool_decide (target = Go.Join args " ").
Proof.
  apply eq_true_iff_eq.
  rewrite orb_true_iff, bool_decide_eq_true, !range_has_true.
  unfold inserted. rewrite elem_of_app, elem_of_cons.
  rewrite <- (take_drop (Z.to_nat (pos - 1)) rules) at 3.
  rewrite elem_of_app. tauto.
Qed.

(** X7. [Insert] leaves the answer of [Exists] for every other rule as it
    was: after a successful [Insert] of [args], [Exists] for [args'] answers
    true exactly when it did before or [args'] joins to the same string as
    [args]. *)
Theorem Insert_keeps_other_answers f table chain pos args args' rules :
  n f !! key table chain = Some rules →
  (1 ≤ pos ≤ Go.len rules + 1)%Z →
  ∃ f1 found,
    Insert f table chain pos args = Return (f1, None)
    ∧ Exists f table chain args' = Return (f, (found, None))
    ∧ Exists f1 table chain args'
      = Return (f1, (found || bool_decide (Go.Join args' " " = Go.Join args " "),
                     None)).
Proof.
  intros Hk Hpos.
  exists (set_chain f (key table chain) (inserted rules pos args)),
    (range_has rules (Go.Join args' " ")).
  split; [by apply Insert_in_range|]. split; [by apply Exists_known|].
  rewrite (Exists_known _ _ _ _ (inserted rules pos args))
    by apply lookup_insert_eq.
  by rewrite range_has_inserted.
Qed.

Lemma Insert_keeps_other_answers_witness :
  ∃ f1 found,
    Insert (newIPTables []) "filter" "INPUT" 1 ["-j"; "ts-input"]
      = Return (f1, None)
    ∧ Exists (newIPTables []) "filter" "INPUT" ["-j"; "DROP"]
      = Return (newIPTables [], (found, None))
    ∧ Exists f1 "filter" "INPUT" ["-j"; "DROP"]
      = Return (f1, (found
                       || bool_decide (Go.Join ["-j"; "DROP"] " "
                                       = Go.Join ["-j"; "ts-input"] " "),
                     None)).
Proof.
  apply (Insert_keeps_other_answers (newIPTables []) "filter" "INPUT" 1
           ["-j"; "ts-input"] ["-j"; "DROP"] []).
  - reflexivity.
  - unfold Go.len. simpl. lia.
Defined.

(** ** What a call never does *)

Lemma same_elsewhere_set k f rules : same_elsewhere k f (set_chain f k rules).
Proof. intros k' Hne. cbn. by apply lookup_insert_ne. Qed.

Lemma same_elsewhere_delete k f : same_elsewhere k f (delete_chain f k).
Proof. intros k' Hne. cbn. by apply lookup_delete_ne. Qed.

Lemma Failed_Errorf l format a : Failed (l ++ [Errorf format a]) = true.
Proof. unfold Failed. rewrite existsb_app. cbn. apply orb_true_r. Qed.

Lemma Failed_Logf l format a : Failed (l ++ [Logf format a]) = Failed l.
Proof. unfold Failed. rewrite existsb_app. cbn. apply orb_false_r. Qed.

(** The outcome of a call is one of the three: the chain under [k] is
    replaced and the test handle is untouched, with no error; or an event is
    recorded and the chains are untouched, with an error; or, for
    [DeleteChain], the chain is removed. *)
Ltac outcome H :=
  repeat match type of H with
         | context [match ?x with _ => _ end] => destruct x eqn:?
         | context [if ?x then _ else _] => destruct x eqn:?
         end;
  cbn [mbind result_bind] in H;
  try discriminate H; simplify_eq.

(** X8. No call touches a chain other than the one it is made on: whatever
    [Insert], [Append], [Delete], [NewChain], [ClearChain], [DeleteChain] or
    [Exists] on (table, chain) returns, every chain under another key has
    the rules it had, and a chain unknown under another key stays unknown. *)
Theorem calls_leave_other_chains f table chain pos args :
  (∀ f' e, Insert f table chain pos args = Return (f', e) →
           same_elsewhere (key table chain) f f')
  ∧ (∀ f' e, Append f table chain args = Return (f', e) →
             same_elsewhere (key table chain) f f')
  ∧ (∀ f' e, Delete f table chain args = Return (f', e) →
             same_elsewhere (key table chain) f f')
  ∧ (∀ f' e, NewChain f table chain = Return (f', e) →
             same_elsewhere (key table chain) f f')
  ∧ (∀ f' e, ClearChain f table chain = Return (f', e) →
             same_elsewhere (key table chain) f f')
  ∧ (∀ f' e, DeleteChain f table chain = Return (f', e) →
             same_elsewhere (key table chain) f f')
  ∧ (∀ f' a, Exists f table chain args = Return (f', a) →
             same_elsewhere (key table chain) f f').
Proof.
  assert (∀ p f' e, Insert f table chain p args = Return (f', e) →
            same_elsewhere (key table chain) f f') as HIns.
  { intros p f' e. rewrite Insert_cases. intros H. outcome H;
      first [apply same_elsewhere_set | by intros ? _]. }
  split; [apply HIns|]. split; [apply HIns|].
  split; [|split; [|split; [|split]]].
  - intros f' e H.
    destruct (Delete_cases f table chain args)
      as [(l1 & l2 & _ & _ & Hdel)|(f'' & Hdel & Hn & _)];
      rewrite Hdel in H; simplify_eq.
    + apply same_elsewhere_set.
    + intros k' _. by rewrite Hn.
  - intros f' e H. unfold NewChain in H. outcome H;
      first [apply same_elsewhere_set | by intros ? _].
  - intros f' e H. unfold ClearChain in H. outcome H;
      first [apply same_elsewhere_set | by intros ? _].
  - intros f' e H. unfold DeleteChain in H. outcome H;
      first [apply same_elsewhere_delete | by intros ? _].
  - intros f' a H. unfold Exists in H. outcome H; by intros ? _.
Qed.

Lemma calls_leave_other_chains_witness :
  n (set_chain (newIPTables []) (key "filter" "INPUT") ["-j ts-input"])
    !! "nat/OUTPUT"
  = n (newIPTables []) !! "nat/OUTPUT".
Proof.
  apply (proj1 (calls_leave_other_chains (newIPTables []) "filter" "INPUT" 1
                  ["-j"; "ts-input"]) _ None).
  - reflexivity.
  - discriminate.
Defined.

(** X9. An error of [Insert], [Append], [Delete], [NewChain] or
    [DeleteChain] is always [errExec] and always marks the test as failed:
    these calls report a misuse through [t.Errorf]. *)
Theorem errors_fail_the_test f table chain pos args :
  (∀ f' e, Insert f table chain pos args = Return (f', Some e) →
           e = errExec ∧ Failed (t f') = true)
  ∧ (∀ f' e, Append f table chain args = Return (f', Some e) →
             e = errExec ∧ Failed (t f') = true)
  ∧ (∀ f' e, Delete f table chain args = Return (f', Some e) →
             e = errExec ∧ Failed (t f') = true)
  ∧ (∀ f' e, NewChain f table chain = Return (f', Some e) →
             e = errExec ∧ Failed (t f') = true)
  ∧ (∀ f' e, DeleteChain f table chain = Return (f', Some e) →
             e = errExec ∧ Failed (t f') = true).
Proof.
  assert (∀ p f' e, Insert f table chain p args = Return (f', Some e) →
            e = errExec ∧ Failed (t f') = true) as HIns.
  { intros p f' e. rewrite Insert_cases. intros H. outcome H;
      (split; [done | apply Failed_Errorf]). }
  split; [apply HIns|]. split; [apply HIns|].
  split; [|split].
  - intros f' e H.
    destruct (Delete_cases f table chain args)
      as [(l1 & l2 & _ & _ & Hdel)|(f'' & Hdel & _ & (ev & Ht & Hev) & _)];
      rewrite Hdel in H; simplify_eq.
    split; [done|]. rewrite Ht. unfold Failed in *.
    rewrite existsb_app, Hev. apply orb_true_r.
  - intros f' e H. unfold NewChain in H. outcome H.
    split; [done | apply Failed_Errorf].
  - intros f' e H. unfold DeleteChain in H. outcome H;
      (split; [done | apply Failed_Errorf]).
Qed.

Lemma errors_fail_the_test_witness :
  (errExec = errExec
   ∧ Failed (t (t_Errorf (newIPTables []) "bad position %d in %s"
                  [ArgInt 3; ArgStr (key "filter" "INPUT")])) = true)
  ∧ (errExec = errExec
     ∧ Failed (t (t_Errorf
                    (set_chain (newIPTables []) "filter/INPUT" ["-j ts-input"])
                    "%s is not empty" [ArgStr "filter/INPUT"])) = true).
Proof.
  split.
  - apply (proj1 (errors_fail_the_test (newIPTables []) "filter" "INPUT" 3
                    ["-j"; "ts-input"])).
    reflexivity.
  - apply (proj2 (proj2 (proj2 (proj2
      (errors_fail_the_test
         (set_chain (newIPTables []) "filter/INPUT" ["-j ts-input"])
         "filter" "INPUT" 1 []))))
      (t_Errorf (set_chain (newIPTables []) "filter/INPUT" ["-j ts-input"])
         "%s is not empty" [ArgStr "filter/INPUT"])).
    vm_compute. reflexivity.
Defined.

(** X10. A call that returns [nil] records nothing on the test handle, and
    [Exists] and [ClearChain] never mark the test as failed, not even when
    they return an error: probing or clearing a chain that does not exist is
    only logged. *)
Theorem quiet_calls f table chain pos args :
  (∀ f', Insert f table chain pos args = Return (f', None) → t f' = t f)
  ∧ (∀ f', Append f table chain args = Return (f', None) → t f' = t f)
  ∧ (∀ f', Delete f table chain args = Return (f', None) → t f' = t f)
  ∧ (∀ f', NewChain f table chain = Return (f', None) → t f' = t f)
  ∧ (∀ f', DeleteChain f table chain = Return (f', None) → t f' = t f)
  ∧ (∀ f' e, ClearChain f table chain = Return (f', e) →
             Failed (t f') = Failed (t f) ∧ (e = None → t f' = t f))
  ∧ (∀ f' found e, Exists f table chain args = Return (f', (found, e)) →
                   Failed (t f') = Failed (t f) ∧ (e = None → t f' = t f)).
Proof.
  assert (∀ p f', Insert f table chain p args = Return (f', None) →
            t f' = t f) as HIns.
  { intros p f'. rewrite Insert_cases. intros H. by outcome H. }
  split; [apply HIns|]. split; [apply HIns|].
  split; [|split; [|split; [|split]]].
  - intros f' H.
    destruct (Delete_cases f table chain args)
      as [(l1 & l2 & _ & _ & Hdel)|(f'' & Hdel & _)];
      rewrite Hdel in H; by simplify_eq.
  - intros f' H. unfold NewChain in H. by outcome H.
  - intros f' H. unfold DeleteChain in H. by outcome H.
  - intros f' e H. unfold ClearChain in H. outcome H; [done|].
    split; [apply Failed_Logf | done].
  - intros f' found e H. unfold Exists in H. outcome H; [done|].
    split; [apply Failed_Logf | done].
Qed.

Lemma quiet_calls_witness :
  (t (set_chain (newIPTables []) (key "filter" "INPUT") ["-j ts-input"])
   = t (newIPTables []))
  ∧ (Failed (t (t_Logf (newIPTables []) "unknown table/chain %s"
                  [ArgStr (key "filter" "ts-input")]))
     = Failed (t (newIPTables []))
     ∧ (Some errExec = None →
        t (t_Logf (newIPTables []) "unknown table/chain %s"
             [ArgStr (key "filter" "ts-input")])
        = t (newIPTables []))).
Proof.
  split.
  - apply (proj1 (quiet_calls (newIPTables []) "filter" "INPUT" 1
                    ["-j"; "ts-input"])).
    reflexivity.
  - apply (proj2 (proj2 (proj2 (proj2 (proj2 (proj2
      (quiet_calls (newIPTables []) "filter" "ts-input" 1 []))))))
      _ false).
    reflexivity.
Defined.

(** X11. [Insert] is the only call that can panic, and it panics exactly
    when the pair is known and the position is zero or negative; [Append]
    and [Delete] always return: the position [Append] computes and the
    index [Delete] slices at are always within bounds. *)
Theorem only_Insert_panics f table chain pos args :
  (Insert f table chain pos args = Panic
   ↔ is_Some (n f !! key table chain) ∧ (pos ≤ 0)%Z)
  ∧ Append f table chain args ≠ Panic
  ∧ Delete f table chain args ≠ Panic.
Proof.
  split; [|split].
  - rewrite Insert_cases.
    destruct (n f !! key table chain) as [rules|] eqn:Hk.
    + assert (0 ≤ Go.len rules)%Z by (unfold Go.len; lia).
      repeat case_decide; split; try done; intros [_ ?]; lia.
    + split; [done | by intros [[? ?] _]].
  - destruct (n f !! key table chain) as [rules|] eqn:Hk.
    + by rewrite (Append_known _ _ _ _ rules).
    + by rewrite Append_unknown.
  - destruct (Delete_cases f table chain args)
      as [(l1 & l2 & _ & _ & Hdel)|(f'' & Hdel & _)]; by rewrite Hdel.
Qed.

Lemma only_Insert_panics_witness :
  (Insert (newIPTables []) "filter" "INPUT" (-1) ["-j"; "ts-input"] = Panic
   ↔ is_Some (n (newIPTables []) !! key "filter" "INPUT") ∧ (-1 ≤ 0)%Z)
  ∧ Append (newIPTables []) "filter" "INPUT" ["-j"; "ts-input"] ≠ Panic
  ∧ Delete (newIPTables []) "filter" "INPUT" ["-j"; "ts-input"] ≠ Panic.
Proof.
  exact (only_Insert_panics (newIPTables []) "filter" "INPUT" (-1)
           ["-j"; "ts-input"]).
Defined.

(** ** Sequences of calls *)

Lemma set_chain_same f k rules :
  n f !! k = Some rules → set_chain f k rules = f.
Proof.
  intros Hk. unfold set_chain. by rewrite insert_id, fake_eta.
Qed.

Lemma set_chain_twice f k rules rules' :
  set_chain (set_chain f k rules) k rules' = set_chain f k rules'.
Proof. unfold set_chain. cbn [t n]. by rewrite insert_insert_eq. Qed.

(** X12. Rules appended one after the other end up behind the rules of the
    chain in the order of the calls: on a known pair, a sequence of [Append]
    calls never fails and leaves the old rules followed by the joined
    arguments of each call, first call first. *)
Theorem Append_each_keeps_order f table chain argss rules :
  n f !! key table chain = Some rules →
  Append_each f table chain argss
  = Return (set_chain f (key table chain)
              (rules ++ ((λ args, Go.Join args " ") <$> argss)), None).
Proof.
  unfold Append_each. revert f rules.
  induction argss as [|args rest IH]; intros f rules Hk.
  - cbn. by rewrite app_nil_r, set_chain_same.
  - cbn [fmap list_fmap Runner.steps].
    rewrite (Append_known _ _ _ _ rules) by done. cbn [mbind result_bind].
    rewrite (IH _ (rules ++ [Go.Join args " "])) by apply lookup_insert_eq.
    by rewrite set_chain_twice, <- (assoc_L (++)).
Qed.

Lemma Append_each_keeps_order_witness :
  Append_each (newIPTables []) "filter" "FORWARD"
    [["-i"; "tun0"; "-j"; "ACCEPT"]; ["-o"; "tun0"; "-j"; "ACCEPT"]]
  = Return (set_chain (newIPTables []) (key "filter" "FORWARD")
              ([] ++ ((λ args, Go.Join args " ")
                        <$> [["-i"; "tun0"; "-j"; "ACCEPT"];
                             ["-o"; "tun0"; "-j"; "ACCEPT"]])), None).
Proof.
  apply (Append_each_keeps_order (newIPTables []) "filter" "FORWARD").
  reflexivity.
Defined.

(** X13. Rules inserted one after the other at position 1 end up in front of
    the rules of the chain in the reverse order of the calls: on a known
    pair, a sequence of [Insert] calls at position 1 never fails, and the
    rule of the last call is the first rule of the chain. *)
Theorem Insert_first_each_reverses f table chain argss rules :
  n f !! key table chain = Some rules →
  Insert_first_each f table chain argss
  = Return (set_chain f (key table chain)
              (reverse ((λ args, Go.Join args " ") <$> argss) ++ rules), None).
Proof.
  unfold Insert_first_each. revert f rules.
  induction argss as [|args rest IH]; intros f rules Hk.
  - cbn. by rewrite set_chain_same.
  - cbn [fmap list_fmap Runner.steps].
    rewrite (Insert_in_range _ _ _ _ _ rules);
      [|done|unfold Go.len; lia].
    cbn [mbind result_bind].
    rewrite (IH _ (inserted rules 1 args)) by apply lookup_insert_eq.
    rewrite set_chain_twice, reverse_cons, <- (assoc_L (++)).
    unfold inserted. simpl. by rewrite drop_0.
Qed.

Lemma Insert_first_each_reverses_witness :
  Insert_first_each (newIPTables []) "filter" "INPUT"
    [["-j"; "a"]; ["-j"; "b"]]
  = Return (set_chain (newIPTables []) (key "filter" "INPUT")
              (reverse ((λ args, Go.Join args " ")
                          <$> [["-j"; "a"]; ["-j"; "b"]]) ++ []), None).
Proof.
  apply (Insert_first_each_reverses (newIPTables []) "filter" "INPUT").
  reflexivity.
Defined.

(** ** Keys and joined arguments *)

Lemma append_nil s : "" +:+ s = s.
Proof. reflexivity. Qed.

Lemma append_cons a s s' : String a s +:+ s' = String a (s +:+ s').
Proof. reflexivity. Qed.

Lemma append_inj a s s' : a +:+ s = a +:+ s' → s = s'.
Proof.
  induction a as [|a0 a IH]; [done|].
  rewrite !append_cons. intros [= Heq]. by apply IH.
Qed.

Lemma split_at_byte c a b s s' :
  has_byte c a = false → has_byte c b = false →
  a +:+ String c s = b +:+ String c s' → a = b ∧ s = s'.
Proof.
  revert b. induction a as [|a0 a IH]; intros [|b0 b] Ha Hb Heq;
    rewrite ?append_nil, ?append_cons in Heq; cbn [has_byte] in Ha, Hb.
  - by injection Heq as ->.
  - injection Heq as Hc _. subst b0. by destruct (decide (c = c)).
  - injection Heq as Hc _. subst a0. by destruct (decide (c = c)).
  - injection Heq as Hc Heq. subst b0.
    destruct (decide (a0 = c)); [done|].
    destruct (IH b Ha Hb Heq) as [-> ->]. done.
Qed.

Lemma has_byte_app c a s : has_byte c (a +:+ String c s) = true.
Proof.
  induction a as [|a0 a IH];
    rewrite ?append_nil, ?append_cons; cbn [has_byte].
  - destruct (decide (c = c)); [done | congruence].
  - by destruct (decide (a0 = c)).
Qed.

(** X14. Two pairs whose table names hold no slash share a key, and so a
    chain, only if they are the same pair; the tables of the tests, filter
    and nat, are of this kind. *)
Theorem key_injective table1 chain1 table2 chain2 :
  has_byte "/" table1 = false →
  has_byte "/" table2 = false →
  key table1 chain1 = key table2 chain2 →
  table1 = table2 ∧ chain1 = chain2.
Proof.
  intros H1 H2 Heq. unfold key in Heq.
  rewrite !append_cons, !append_nil in Heq. by apply (split_at_byte "/").
Qed.

Lemma key_injective_witness :
  "filter" = "filter" ∧ "INPUT" = "INPUT".
Proof.
  apply (key_injective "filter" "INPUT" "filter" "INPUT"); reflexivity.
Defined.

Lemma Join_cons_cons e r rest sep :
  Go.Join (e :: r :: rest) sep = e +:+ sep +:+ Go.Join (r :: rest) sep.
Proof. reflexivity. Qed.

Lemma Join_plain_nonempty e rest :
  plain e → Go.Join (e :: rest) " " ≠ "".
Proof.
  intros [Hne _]. destruct e as [|a e]; [done|].
  by destruct rest.
Qed.

Lemma Join_inj args args' :
  Forall plain args → Forall plain args' →
  Go.Join args " " = Go.Join args' " " → args = args'.
Proof.
  intros Hargs. revert args'.
  induction Hargs as [|e rest He Hrest IH]; intros args' Hargs' Heq.
  - destruct Hargs' as [|e' rest' He' _]; [done|].
    symmetry in Heq. by apply Join_plain_nonempty in Heq.
  - destruct Hargs' as [|e' rest' He' Hrest'].
    { by apply Join_plain_nonempty in Heq. }
    destruct rest as [|r rest], rest' as [|r' rest'].
    + cbn in Heq. by subst.
    + rewrite Join_cons_cons, append_cons, append_nil in Heq.
      cbn [Go.Join] in Heq. subst e.
      destruct He as [_ He]. by rewrite has_byte_app in He.
    + rewrite Join_cons_cons, append_cons, append_nil in Heq.
      cbn [Go.Join] in Heq. subst e'.
      destruct He' as [_ He']. by rewrite has_byte_app in He'.
    + rewrite !Join_cons_cons, !append_cons, !append_nil in Heq.
      apply (split_at_byte " ") in Heq as [-> Heq];
        [|by destruct He|by destruct He'].
      f_equal. by apply IH.
Qed.

(** X15. Argument lists made of non-empty arguments without a space are
    never taken for one another: after [Insert] of such a list, [Exists] for
    a different such list answers what it answered before. *)
Theorem plain_arguments_are_told_apart f table chain pos args args' rules :
  n f !! key table chain = Some rules →
  (1 ≤ pos ≤ Go.len rules + 1)%Z →
  Forall plain args → Forall plain args' → args' ≠ args →
  ∃ f1 found,
    Insert f table chain pos args = Return (f1, None)
    ∧ Exists f table chain args' = Return (f, (found, None))
    ∧ Exists f1 table chain args' = Return (f1, (found, None)).
Proof.
  intros Hk Hpos Hargs Hargs' Hne.
  exists (set_chain f (key table chain) (inserted rules pos args)),
    (range_has rules (Go.Join args' " ")).
  split; [by apply Insert_in_range|]. split; [by apply Exists_known|].
  rewrite (Exists_known _ _ _ _ (inserted rules pos args))
    by apply lookup_insert_eq.
  rewrite range_has_inserted.
  rewrite bool_decide_eq_false_2, orb_false_r; [done|].
  intros Heq. by apply Hne, Join_inj.
Qed.

Lemma plain_arguments_are_told_apart_witness :
  ∃ f1 found,
    Insert (newIPTables []) "filter" "INPUT" 1 ["-j"; "ts-input"]
      = Return (f1, None)
    ∧ Exists (newIPTables []) "filter" "INPUT" ["-j"; "ts-forward"]
      = Return (newIPTables [], (found, None))
    ∧ Exists f1 "filter" "INPUT" ["-j"; "ts-forward"]
      = Return (f1, (found, None)).
Proof.
  apply (plain_arguments_are_told_apart (newIPTables []) "filter" "INPUT" 1
           ["-j"; "ts-input"] ["-j"; "ts-forward"] []).
  - reflexivity.
  - unfold Go.len. simpl. lia.
  - repeat constructor; discriminate.
  - repeat constructor; discriminate.
  - discriminate.
Defined.

(** * Package ipproto *)

Module ipprotoFacts.
Import ipproto.

Lemma Sprintf_d_inj p q : Sprintf_d p = Sprintf_d q → p = q.
Proof. apply pretty_Z_inj. Qed.

(** X16. [Version.String] gives different versions different names. *)
Theorem Version_String_injective p q :
  Version_String p = Version_String q → p = q.
Proof.
  unfold Version_String, Version4, Version6.
  repeat case_decide; subst; intros Heq; try done;
    rewrite ?append_cons, ?append_nil in Heq; try discriminate Heq.
  injection Heq as Heq. by apply Sprintf_d_inj.
Qed.

Lemma Version_String_injective_witness : Version4 = 4%Z.
Proof. by apply (Version_String_injective Version4 4). Defined.

(** X17. [Proto.String] gives different protocols different names: the
    eleven names are pairwise distinct, none of them is the text printed for
    a protocol without a name, and that text determines the number. *)
Theorem Proto_String_injective p q :
  Proto_String p = Proto_String q → p = q.
Proof.
  unfold Proto_String, Unknown, Fragment, ICMPv4, IGMP, ICMPv6, UDP, TCP,
    SCTP, TSMP, GRE, DCCP.
  repeat case_decide; subst; intros Heq; try done;
    rewrite ?append_cons, ?append_nil in Heq; try discriminate Heq.
  injection Heq as Heq. by apply Sprintf_d_inj.
Qed.

Lemma Proto_String_injective_witness : TCP = 6%Z.
Proof. by apply (Proto_String_injective TCP 6). Defined.

End ipprotoFacts.

Example Insert_demo :
  (r1 ← Insert (newIPTables []) "filter" "INPUT" 1 ["-j"; "a"];
   r2 ← Insert r1.1 "filter" "INPUT" 1 ["-j"; "b"];
   r3 ← Insert r2.1 "filter" "INPUT" 2 ["-j"; "c"];
   Return (n r3.1 !! "filter/INPUT"))
  = Return (Some ["-j b"; "-j c"; "-j a"]).
Proof. vm_compute. reflexivity. Qed.

Example AddHooks_demo :
  (r ← Runner.AddHooks (Runner.newFakeIPTablesRunner []);
   Return (Runner.ipt4 r.1 !! "nat/POSTROUTING", r.2))
  = Return (Some ["-j ts-postrouting"], None).
Proof. vm_compute. reflexivity. Qed.
